(** * GNodeGUI: the node view ([GraphicsNode]) of the node-graph editor

    A shallow embedding of [src/GNodeGUI/src/graphics_node.cpp]: the hover
    tracker, the connection drag handlers (press, release), the scene event
    filter that relays pointer moves to the other views, and [paint].

    Conventions.
    - A view pointer ([GraphicsNode *], [this], [watched]) is the index of
      the item in the scene's item list.
    - Indexing a [std::vector] or asking the proxy for a port outside its
      range has no defined result in the source; every such access is
      written out and yields [None].  A handler that returns [Some] has made
      only in-range accesses.
    - [qreal] coordinates are exact rationals; rounding is not modelled, and
      no statement relies on an arithmetic identity: a hit test is always
      stated on the item position the handler computes from its event. *)

From stdpp Require Import base option list strings numbers.
From Stdlib Require Import QArith.

Local Open Scope Z_scope.

(* ===================================================================== *)
(** ** Qt value types used by the view *)
(* ===================================================================== *)

Module Qt.

Definition qreal := Q.

Record QPointF := mkPoint { px : qreal; py : qreal }.

(** [operator-] and [operator+] on points. *)
Definition sub (a b : QPointF) : QPointF :=
  mkPoint (px a - px b)%Q (py a - py b)%Q.
Definition add (a b : QPointF) : QPointF :=
  mkPoint (px a + px b)%Q (py a + py b)%Q.

Record QRectF := mkRect { xp : qreal; yp : qreal; rw : qreal; rh : qreal }.

Definition Qlt_bool (a b : Q) : bool := negb (Qle_bool b a).

(** [QRectF::contains(const QPointF &)]: edges included, a rectangle of
    zero width or height contains nothing, negative extents are
    normalised. *)
Definition contains (r : QRectF) (p : QPointF) : bool :=
  let l := if Qlt_bool (rw r) 0 then (xp r + rw r)%Q else xp r in
  let rr := if Qlt_bool (rw r) 0 then xp r else (xp r + rw r)%Q in
  let t := if Qlt_bool (rh r) 0 then (yp r + rh r)%Q else yp r in
  let b := if Qlt_bool (rh r) 0 then yp r else (yp r + rh r)%Q in
  if Qeq_bool l rr then false
  else if Qlt_bool (px p) l || Qlt_bool rr (px p) then false
  else if Qeq_bool t b then false
  else if Qlt_bool (py p) t || Qlt_bool b (py p) then false
  else true.

(** [QRectF::center()]. *)
Definition center (r : QRectF) : QPointF :=
  mkPoint (xp r + rw r / 2)%Q (yp r + rh r / 2)%Q.

Inductive MouseButton := LeftButton | RightButton | MiddleButton.

Record QColor := rgb { red : N; green : N; blue : N }.

Definition white : QColor := rgb 255 255 255.

Inductive QPen := NoPen | Pen (color : QColor) (width : qreal).
Inductive QBrush := NoBrush | Brush (color : QColor).
Inductive Alignment := AlignLeft | AlignRight.

End Qt.
Import Qt.

(** Reading [v[k]] with an [int] index. *)
Definition at_index {A} (l : list A) (k : Z) : option A :=
  if k <? 0 then None else l !! Z.to_nat k.

(* ===================================================================== *)
(** ** Collaborators declared outside [graphics_node.cpp] *)
(* ===================================================================== *)

Inductive PortType := IN | OUT.

Definition PortType_eqb (a b : PortType) : bool :=
  match a, b with IN, IN | OUT, OUT => true | _, _ => false end.

Record Port := mkPort {
  port_type : PortType;
  port_data_type : string;
  port_caption : string
}.

(** Modelled from the spec: the node proxy ([NodeProxy], whose header is not
    part of the sources) supplies the port count, the direction, data-type
    tag and caption of each port, the node caption and a stable identifier. *)
Record NodeProxy := mkProxy {
  proxy_id : string;
  proxy_caption : string;
  proxy_ports : list Port
}.

Definition get_id (p : NodeProxy) : string := proxy_id p.
Definition get_caption (p : NodeProxy) : string := proxy_caption p.
Definition get_nports (p : NodeProxy) : nat := length (proxy_ports p).
Definition get_port_type (p : NodeProxy) (k : Z) : option PortType :=
  port_type <$> at_index (proxy_ports p) k.
Definition get_data_type (p : NodeProxy) (k : Z) : option string :=
  port_data_type <$> at_index (proxy_ports p) k.
Definition get_port_caption (p : NodeProxy) (k : Z) : option string :=
  port_caption <$> at_index (proxy_ports p) k.

(** Modelled from the spec: the geometry value object
    ([GraphicsNodeGeometry], header not part of the sources), with the
    fields [graphics_node.cpp] reads. *)
Record GraphicsNodeGeometry := mkGeometry {
  full_width : qreal;
  full_height : qreal;
  body_rect : QRectF;
  caption_pos : QPointF;
  port_label_rects : list QRectF;
  port_rects : list QRectF
}.

(** Modelled from the spec: the style constants ([style.node.*] and
    [get_color_from_data_type], from [style.hpp], not part of the sources). *)
Record NodeStyle := mkStyle {
  color_bg : QColor;
  color_border : QColor;
  color_border_hovered : QColor;
  color_caption : QColor;
  color_selected : QColor;
  color_port_hovered : QColor;
  color_port_not_selectable : QColor;
  thickness_border : qreal;
  thickness_hovered : qreal;
  thickness_selected : qreal;
  rounding_radius : qreal;
  port_radius : qreal;
  port_radius_not_selectable : qreal;
  get_color_from_data_type : string → QColor
}.

(* ===================================================================== *)
(** ** The view *)
(* ===================================================================== *)

(** The members of [GraphicsNode] together with the item state it owns in
    Qt: its scene position, the selection state, the [ItemIsMovable] flag
    and whether a redraw was requested with [update()]. *)
Record GraphicsNode := mkNode {
  p_node_proxy : NodeProxy;
  geometry : GraphicsNodeGeometry;
  scenePos : QPointF;
  isSelected : bool;
  ItemIsMovable : bool;
  update_requested : bool;
  is_node_hovered : bool;
  is_port_hovered : list bool;
  has_connection_started : bool;
  port_index_from : Z;
  data_type_connecting : string
}.

Definition set_is_port_hovered (v : list bool) (n : GraphicsNode) :=
  mkNode (p_node_proxy n) (geometry n) (scenePos n) (isSelected n)
    (ItemIsMovable n) (update_requested n) (is_node_hovered n) v
    (has_connection_started n) (port_index_from n) (data_type_connecting n).

Definition set_is_node_hovered (b : bool) (n : GraphicsNode) :=
  mkNode (p_node_proxy n) (geometry n) (scenePos n) (isSelected n)
    (ItemIsMovable n) (update_requested n) b (is_port_hovered n)
    (has_connection_started n) (port_index_from n) (data_type_connecting n).

Definition set_has_connection_started (b : bool) (n : GraphicsNode) :=
  mkNode (p_node_proxy n) (geometry n) (scenePos n) (isSelected n)
    (ItemIsMovable n) (update_requested n) (is_node_hovered n)
    (is_port_hovered n) b (port_index_from n) (data_type_connecting n).

Definition set_port_index_from (k : Z) (n : GraphicsNode) :=
  mkNode (p_node_proxy n) (geometry n) (scenePos n) (isSelected n)
    (ItemIsMovable n) (update_requested n) (is_node_hovered n)
    (is_port_hovered n) (has_connection_started n) k (data_type_connecting n).

Definition set_data_type_connecting (t : string) (n : GraphicsNode) :=
  mkNode (p_node_proxy n) (geometry n) (scenePos n) (isSelected n)
    (ItemIsMovable n) (update_requested n) (is_node_hovered n)
    (is_port_hovered n) (has_connection_started n) (port_index_from n) t.

(** [setFlag(QGraphicsItem::ItemIsMovable, b)]. *)
Definition setFlag_ItemIsMovable (b : bool) (n : GraphicsNode) :=
  mkNode (p_node_proxy n) (geometry n) (scenePos n) (isSelected n)
    b (update_requested n) (is_node_hovered n)
    (is_port_hovered n) (has_connection_started n) (port_index_from n)
    (data_type_connecting n).

(** [update()]: a redraw of the view is owed. *)
Definition update (n : GraphicsNode) :=
  mkNode (p_node_proxy n) (geometry n) (scenePos n) (isSelected n)
    (ItemIsMovable n) true (is_node_hovered n)
    (is_port_hovered n) (has_connection_started n) (port_index_from n)
    (data_type_connecting n).

(** The constructor: flags sized to the proxy's port count, all false. *)
Definition new_GraphicsNode (p : NodeProxy) (g : GraphicsNodeGeometry)
    (at_pos : QPointF) : GraphicsNode :=
  mkNode p g at_pos false true false false
    (replicate (get_nports p) false) false 0 "".

(** [std::find(begin, end, true)], as the distance from [begin]. *)
Fixpoint find_true (v : list bool) : option nat :=
  match v with
  | [] => None
  | b :: v' => if b then Some 0%nat else S <$> find_true v'
  end.

Definition get_hovered_port_index (n : GraphicsNode) : Z :=
  match find_true (is_port_hovered n) with
  | Some d => Z.of_nat d
  | None => -1
  end.

Definition reset_is_port_hovered (n : GraphicsNode) : GraphicsNode :=
  set_is_port_hovered (replicate (length (is_port_hovered n)) false) n.

(** First loop of [update_is_port_hovered]: the first [k], counted from
    [k0], whose hit rectangle contains the point. *)
Fixpoint first_hit (rects : list QRectF) (k0 : nat) (item_pos : QPointF)
    : option nat :=
  match rects with
  | [] => None
  | r :: rects' =>
      if contains r item_pos then Some k0
      else first_hit rects' (S k0) item_pos
  end.

(** Second loop: for [k = k0 .. k0 + count - 1], clear the first flag found
    set and report a change. *)
Fixpoint clear_first_hovered (count k0 : nat) (v : list bool)
    : option (list bool * bool) :=
  match count with
  | O => Some (v, false)
  | S count' =>
      b ← v !! k0;
      if b : bool then Some (<[k0 := false]> v, true)
      else clear_first_hovered count' (S k0) v
  end.

(** [GraphicsNode::update_is_port_hovered] on the flags of a view with the
    given hit rectangles. *)
Definition update_flags (rects : list QRectF) (v : list bool)
    (item_pos : QPointF) : option (list bool * bool) :=
  match first_hit rects 0 item_pos with
  | Some k =>
      _ ← v !! k;
      Some (<[k := true]> v, true)
  | None => clear_first_hovered (length rects) 0 v
  end.

Definition update_is_port_hovered (item_pos : QPointF) (n : GraphicsNode)
    : option (GraphicsNode * bool) :=
  '(v, changed) ← update_flags (port_rects (geometry n)) (is_port_hovered n) item_pos;
  Some (set_is_port_hovered v n, changed).

(* ===================================================================== *)
(** ** The scene, the events and the signals *)
(* ===================================================================== *)

Inductive QGraphicsItem :=
| NodeItem (n : GraphicsNode)
| OtherItem (shape : QRectF).

(** The signals of [GraphicsNode]; views are named by their scene index. *)
Inductive Signal :=
| connection_started (from : nat) (port_index : Z)
| connection_finished (from : nat) (port_from : Z) (to : nat) (port_to : Z)
| connection_dropped (from : nat) (port_index : Z) (scene_pos : QPointF)
| right_clicked (id : string) (scene_pos : QPointF).

(** The items of the scene, front-most first (descending stacking order, the
    order of [QGraphicsScene::items]), and the signals emitted so far,
    oldest first. *)
Record Scene := mkScene {
  scene_items : list QGraphicsItem;
  emitted : list Signal
}.

Record QGraphicsSceneMouseEvent := mkMouseEvent {
  button : MouseButton;
  event_pos : QPointF;
  event_scenePos : QPointF
}.

Inductive QEvent :=
| GraphicsSceneMouseMove (mouse_event : QGraphicsSceneMouseEvent)
| OtherEvent.

(** [dynamic_cast<GraphicsNode *>(item)]. *)
Definition as_node (it : QGraphicsItem) : option GraphicsNode :=
  match it with NodeItem n => Some n | OtherItem _ => None end.

Definition node_at (s : Scene) (i : nat) : option GraphicsNode :=
  scene_items s !! i ≫= as_node.

Definition put_node (i : nat) (n : GraphicsNode) (s : Scene) : Scene :=
  mkScene (<[i := NodeItem n]> (scene_items s)) (emitted s).

Definition emit (sig : Signal) (s : Scene) : Scene :=
  mkScene (scene_items s) (emitted s ++ [sig]).

(** The shape of an item in scene coordinates.  A view is a rectangle item
    with [setRect(0, 0, full_width, full_height)], placed at [scenePos]
    without any other transformation. *)
Definition item_contains (it : QGraphicsItem) (p : QPointF) : bool :=
  match it with
  | NodeItem n =>
      contains (mkRect 0%Q 0%Q (full_width (geometry n)) (full_height (geometry n)))
               (sub p (scenePos n))
  | OtherItem shape => contains shape p
  end.

(** [QGraphicsScene::items(pos)]: the items whose shape contains the point,
    front-most first. *)
Fixpoint items_at_from (its : list QGraphicsItem) (i0 : nat) (p : QPointF)
    : list nat :=
  match its with
  | [] => []
  | it :: its' =>
      if item_contains it p then i0 :: items_at_from its' (S i0) p
      else items_at_from its' (S i0) p
  end.

Definition items_at (s : Scene) (p : QPointF) : list nat :=
  items_at_from (scene_items s) 0 p.

(** [mapToScene] of an item that is only translated. *)
Definition mapToScene (n : GraphicsNode) (p : QPointF) : QPointF :=
  add p (scenePos n).

(** [for (k = k0; k < k0 + count; k++) body]. *)
Fixpoint for_range {St} (count k0 : nat) (body : nat → St → option St)
    (s : St) : option St :=
  match count with
  | O => Some s
  | S count' => s' ← body k0 s; for_range count' (S k0) body s'
  end.

(* ===================================================================== *)
(** ** Event handlers

    The calls to the base class ([QGraphicsRectItem::...Event]) that end
    every handler touch no member of [GraphicsNode] and are left out. *)
(* ===================================================================== *)

Definition hoverEnterEvent (this : nat) (s : Scene) : Scene :=
  match node_at s this with
  | None => s
  | Some me => put_node this (update (set_is_node_hovered true me)) s
  end.

Definition hoverLeaveEvent (this : nat) (s : Scene) : Scene :=
  match node_at s this with
  | None => s
  | Some me => put_node this (update (set_is_node_hovered false me)) s
  end.

Definition hoverMoveEvent (this : nat) (pos : QPointF) (s : Scene)
    : option Scene :=
  match node_at s this with
  | None => Some s
  | Some me =>
      let scene_pos := mapToScene me pos in
      let item_pos := sub scene_pos (scenePos me) in
      '(me', changed) ← update_is_port_hovered item_pos me;
      Some (put_node this (if changed : bool then update me' else me') s)
  end.

Definition mousePressEvent (this : nat) (event : QGraphicsSceneMouseEvent)
    (s : Scene) : option Scene :=
  match node_at s this with
  | None => Some s
  | Some me =>
      match button event with
      | LeftButton =>
          let hovered_port_index := get_hovered_port_index me in
          if 0 <=? hovered_port_index then
            data_type ← get_data_type (p_node_proxy me) hovered_port_index;
            let me := set_has_connection_started true me in
            let me := setFlag_ItemIsMovable false me in
            let me := set_port_index_from hovered_port_index me in
            let me := set_data_type_connecting data_type me in
            Some (emit (connection_started this hovered_port_index)
                       (put_node this me s))
          else Some s
      | RightButton =>
          Some (emit (right_clicked (get_id (p_node_proxy me)) (scenePos me)) s)
      | MiddleButton => Some s
      end
  end.

(** The scan of [mouseReleaseEvent] over the items under the pointer: the
    signal to emit, if any, and [is_dropped]. *)
Fixpoint release_scan (this : nat) (from : Z) (s : Scene)
    (items_under_mouse : list nat) : option Signal * bool :=
  match items_under_mouse with
  | [] => (None, true)
  | item :: rest =>
      match node_at s item with
      | Some target_node =>
          let hovered_port_index := get_hovered_port_index target_node in
          if 0 <=? hovered_port_index then
            (Some (connection_finished this from item hovered_port_index), false)
          else (None, true)
      | None => release_scan this from s rest
      end
  end.

Definition on_item (f : GraphicsNode → GraphicsNode) (it : QGraphicsItem)
    : QGraphicsItem :=
  match it with NodeItem n => NodeItem (f n) | OtherItem sh => OtherItem sh end.

Definition on_this (this : nat) (f : GraphicsNode → GraphicsNode) (s : Scene)
    : Scene :=
  mkScene (alter (on_item f) this (scene_items s)) (emitted s).

(** "clean-up port color state": every view of the scene. *)
Definition clean_up_port_color_state (s : Scene) : Scene :=
  mkScene (on_item (λ node, update (set_data_type_connecting "" node))
             <$> scene_items s)
          (emitted s).

Definition mouseReleaseEvent (this : nat) (event : QGraphicsSceneMouseEvent)
    (s : Scene) : Scene :=
  match node_at s this with
  | None => s
  | Some me =>
      match button event with
      | LeftButton =>
          if has_connection_started me then
            let items_under_mouse := items_at s (event_scenePos event) in
            let '(finished, is_dropped) :=
              release_scan this (port_index_from me) s items_under_mouse in
            let s := match finished with Some sig => emit sig s | None => s end in
            let s := on_this this (λ n, update (reset_is_port_hovered n)) s in
            let s :=
              if is_dropped : bool then
                emit (connection_dropped this (port_index_from me)
                                         (event_scenePos event)) s
              else s in
            let s := on_this this (set_has_connection_started false) s in
            let s := clean_up_port_color_state s in
            let s := on_this this (set_data_type_connecting "") s in
            on_this this (setFlag_ItemIsMovable true) s
          else s
      | _ => s
      end
  end.

(** Body of the compatibility loop of [sceneEventFilter] for port [k] of the
    filtering view; [node] is the watched view, the origin of the link. *)
Definition check_port (node : GraphicsNode) (proxy : NodeProxy) (k : nat)
    (v : list bool) : option (list bool) :=
  hovered ← v !! k;
  if hovered : bool then
    let from_pidx := port_index_from node in
    from_ptype ← get_port_type (p_node_proxy node) from_pidx;
    to_ptype ← get_port_type proxy (Z.of_nat k);
    from_pdata ← get_data_type (p_node_proxy node) from_pidx;
    to_pdata ← get_data_type proxy (Z.of_nat k);
    if PortType_eqb from_ptype to_ptype || negb (String.eqb from_pdata to_pdata)
    then Some (<[k := false]> v)
    else Some v
  else Some v.

(** [sceneEventFilter]: [this] filters an event sent to [watched].  The
    members read from [node] (link origin, its proxy, its data type) are
    not written by the handler, also when [watched] is [this]. *)
Definition sceneEventFilter (this watched : nat) (event : QEvent) (s : Scene)
    : option Scene :=
  match node_at s this, node_at s watched with
  | Some me, Some node =>
      match event with
      | GraphicsSceneMouseMove mouse_event =>
          if has_connection_started node then
            let item_pos := sub (event_scenePos mouse_event) (scenePos me) in
            let me :=
              if negb (String.eqb (data_type_connecting me)
                                  (data_type_connecting node))
              then update (set_data_type_connecting (data_type_connecting node) me)
              else me in
            '(me, changed) ← update_is_port_hovered item_pos me;
            if changed : bool then
              v ← for_range (get_nports (p_node_proxy me)) 0
                    (check_port node (p_node_proxy me)) (is_port_hovered me);
              Some (put_node this (update (set_is_port_hovered v me)) s)
            else Some (put_node this me s)
          else Some s
      | OtherEvent => Some s
      end
  | _, _ => Some s
  end.

(* ===================================================================== *)
(** ** [paint] *)
(* ===================================================================== *)

(** A drawing primitive together with the pen and brush of the painter at
    the time of the call (text is drawn with the pen only). *)
Inductive DrawCall :=
| drawRoundedRect (pen : QPen) (brush : QBrush) (rect : QRectF)
                  (x_radius y_radius : qreal)
| drawText (pen : QPen) (pos : QPointF) (text : string)
| drawText_in (pen : QPen) (rect : QRectF) (flags : Alignment) (text : string)
| drawEllipse (pen : QPen) (brush : QBrush) (center : QPointF)
              (rx ry : qreal).

(** "Border": the pen of the body outline. *)
Definition border_pen (style : NodeStyle) (me : GraphicsNode) : QPen :=
  if isSelected me then Pen (color_selected style) (thickness_selected style)
  else if is_node_hovered me
       then Pen (color_border_hovered style) (thickness_hovered style)
       else Pen (color_border style) (thickness_border style).

(** "Port appearance when hovered or not": the pen of a port outline, from
    the flag of the port and [is_node_hovered]. *)
Definition outline_pen (style : NodeStyle) (me : GraphicsNode)
    (hovered : bool) : QPen :=
  if hovered
  then Pen (color_port_hovered style) (thickness_selected style)
  else if is_node_hovered me
       then Pen (color_border_hovered style) (thickness_hovered style)
       else Pen (color_border style) (thickness_border style).

Definition port_pen (style : NodeStyle) (me : GraphicsNode) (k : nat)
    : option QPen :=
  hovered ← is_port_hovered me !! k;
  Some (outline_pen style me hovered).

(** One iteration of the "Ports" loop of [paint]. *)
Definition paint_port (style : NodeStyle) (me : GraphicsNode) (k : nat)
    : option (list DrawCall) :=
  let proxy := p_node_proxy me in
  ptype ← get_port_type proxy (Z.of_nat k);
  let align_flag := if PortType_eqb ptype IN then AlignLeft else AlignRight in
  label_rect ← port_label_rects (geometry me) !! k;
  caption ← get_port_caption proxy (Z.of_nat k);
  pen ← port_pen style me k;
  data_type ← get_data_type proxy (Z.of_nat k);
  let '(brush, radius) :=
    if negb (String.eqb (data_type_connecting me) "")
       && negb (String.eqb data_type (data_type_connecting me))
    then (Brush (color_port_not_selectable style),
          port_radius_not_selectable style)
    else (Brush (get_color_from_data_type style data_type),
          port_radius style) in
  rect ← port_rects (geometry me) !! k;
  Some [drawText_in (Pen white 1%Q) label_rect align_flag caption;
        drawEllipse pen brush (center rect) radius radius].

(** The loop body: the calls of port [k] follow those made so far. *)
Definition paint_step (style : NodeStyle) (me : GraphicsNode) (k : nat)
    (calls : list DrawCall) : option (list DrawCall) :=
  port_calls ← paint_port style me k; Some (calls ++ port_calls).

Definition paint (style : NodeStyle) (me : GraphicsNode)
    : option (list DrawCall) :=
  let background :=
    drawRoundedRect NoPen (Brush (color_bg style)) (body_rect (geometry me))
      (rounding_radius style) (rounding_radius style) in
  let caption :=
    drawText (Pen (if isSelected me then color_selected style
                   else color_caption style) 1%Q)
      (caption_pos (geometry me)) (get_caption (p_node_proxy me)) in
  let border :=
    drawRoundedRect (border_pen style me) NoBrush (body_rect (geometry me))
      (rounding_radius style) (rounding_radius style) in
  for_range (get_nports (p_node_proxy me)) 0 (paint_step style me)
    [background; caption; border].

(* ===================================================================== *)
(** ** State predicates *)
(* ===================================================================== *)

(** What the constructor establishes: one hover flag and one hit rectangle
    per port of the proxy. *)
Definition view_sized (n : GraphicsNode) : Prop :=
  length (is_port_hovered n) = get_nports (p_node_proxy n)
  ∧ length (port_rects (geometry n)) = get_nports (p_node_proxy n).

(** Invariant I1 of the hover tracker. *)
Definition at_most_one_hovered (v : list bool) : Prop :=
  ∀ i j, v !! i = Some true → v !! j = Some true → i = j.

Definition none_hovered (v : list bool) : Prop :=
  ∀ i, v !! i ≠ Some true.

(** The scene in which every proxy [p] has been replaced by [f p]: the
    same views, flags and geometry over other port metadata. *)
Definition with_proxy (f : NodeProxy → NodeProxy) (n : GraphicsNode) :=
  mkNode (f (p_node_proxy n)) (geometry n) (scenePos n) (isSelected n)
    (ItemIsMovable n) (update_requested n) (is_node_hovered n)
    (is_port_hovered n) (has_connection_started n) (port_index_from n)
    (data_type_connecting n).

Definition replace_proxies (f : NodeProxy → NodeProxy) (s : Scene) : Scene :=
  mkScene (on_item (with_proxy f) <$> scene_items s) (emitted s).

(** The test of the relay loop on two ports: the flag survives when the
    directions differ and the data types agree. *)
Definition ports_compatible (from_port to_port : Port) : bool :=
  negb (PortType_eqb (port_type from_port) (port_type to_port)
        || negb (String.eqb (port_data_type from_port) (port_data_type to_port))).

(** The flag of port [j] of a view with proxy [proxy] after the
    compatibility loop has visited it, [from_port] being the origin port. *)
Definition checked (proxy : NodeProxy) (from_port : Port) (j : nat)
    (hovered : bool) : bool :=
  hovered && match proxy_ports proxy !! j with
             | Some to_port => ports_compatible from_port to_port
             | None => false
             end.

(** Invariant I3 as the spec words it: while some view is dragging, every
    view carries the data type of the origin port. *)
Definition data_type_mirrored (s : Scene) : Prop :=
  ∀ i origin, node_at s i = Some origin →
    has_connection_started origin = true →
    ∀ j n, node_at s j = Some n →
      get_data_type (p_node_proxy origin) (port_index_from origin)
      = Some (data_type_connecting n).

(** Invariant I4 as the spec words it: no view keeps a connecting data type
    or a hovered port. *)
Definition cleanup_complete (s : Scene) : Prop :=
  ∀ j n, node_at s j = Some n →
    data_type_connecting n = "" ∧ none_hovered (is_port_hovered n).

(** The compatibility rule: directions differ and data-type tags agree. *)
Definition compatible (origin : NodeProxy) (from_pidx : Z)
    (target : NodeProxy) (k : nat) : Prop :=
  ∃ from_port to_port,
    at_index (proxy_ports origin) from_pidx = Some from_port
    ∧ proxy_ports target !! k = Some to_port
    ∧ port_type from_port ≠ port_type to_port
    ∧ port_data_type from_port = port_data_type to_port.

(** The origin view after the release. *)
Definition released_origin (n : GraphicsNode) : GraphicsNode :=
  setFlag_ItemIsMovable true
    (set_data_type_connecting ""
       (update (set_data_type_connecting ""
          (set_has_connection_started false
             (update (reset_is_port_hovered n)))))).

(** The number of flags that are set. *)
Fixpoint count_hovered (v : list bool) : nat :=
  match v with
  | [] => 0%nat
  | b :: v' => ((if b then 1 else 0) + count_hovered v')%nat
  end.

(** A stream of pointer positions, each handed to [update_is_port_hovered]
    of the same view. *)
Fixpoint hover_moves (ps : list QPointF) (n : GraphicsNode)
    : option GraphicsNode :=
  match ps with
  | [] => Some n
  | p :: ps' => '(n', _) ← update_is_port_hovered p n; hover_moves ps' n'
  end.

(** Two states of a view with the same proxy, geometry and position and as
    many hover flags. *)
Definition same_layout (n n' : GraphicsNode) : Prop :=
  p_node_proxy n' = p_node_proxy n
  ∧ geometry n' = geometry n
  ∧ scenePos n' = scenePos n
  ∧ length (is_port_hovered n') = length (is_port_hovered n).

(** Two scenes with views at the same indices, pairwise of the same
    layout. *)
Definition scene_same_layout (s s' : Scene) : Prop :=
  ∀ j, match node_at s j, node_at s' j with
       | Some n, Some n' => same_layout n n'
       | None, None => True
       | _, _ => False
       end.

(* ===================================================================== *)
(** ** Sample scenes

    Two single-port nodes side by side, a two-port node, and the events of
    a drag from the first node to the second. *)
(* ===================================================================== *)

Module Samples.

Definition pt (x y : Z) : QPointF := mkPoint (inject_Z x) (inject_Z y).
Definition rect (x y w h : Z) : QRectF :=
  mkRect (inject_Z x) (inject_Z y) (inject_Z w) (inject_Z h).

(** A 100 x 60 body with one port on the right edge (OUT side). *)
Definition geometry_out : GraphicsNodeGeometry :=
  mkGeometry (inject_Z 100) (inject_Z 60) (rect 0 0 100 60) (pt 10 15)
    [rect 10 30 80 16] [rect 90 30 10 10].

(** The same body with one port on the left edge (IN side). *)
Definition geometry_in : GraphicsNodeGeometry :=
  mkGeometry (inject_Z 100) (inject_Z 60) (rect 0 0 100 60) (pt 10 15)
    [rect 10 30 80 16] [rect 0 30 10 10].

(** Two ports on the left edge, one above the other. *)
Definition geometry_in2 : GraphicsNodeGeometry :=
  mkGeometry (inject_Z 100) (inject_Z 80) (rect 0 0 100 80) (pt 10 15)
    [rect 10 30 80 16; rect 10 50 80 16] [rect 0 30 10 10; rect 0 50 10 10].

Definition proxy_N1 : NodeProxy := mkProxy "N1" "source" [mkPort OUT "float" "out"].
Definition proxy_N2 : NodeProxy := mkProxy "N2" "sink" [mkPort IN "float" "in"].
Definition proxy_N2_int : NodeProxy := mkProxy "N2" "sink" [mkPort IN "int" "in"].
Definition proxy_N3 : NodeProxy :=
  mkProxy "N3" "mixer" [mkPort IN "float" "a"; mkPort IN "float" "b"].

Definition N1 : GraphicsNode := new_GraphicsNode proxy_N1 geometry_out (pt 0 0).
Definition N2 : GraphicsNode := new_GraphicsNode proxy_N2 geometry_in (pt 200 0).
Definition N2_int : GraphicsNode :=
  new_GraphicsNode proxy_N2_int geometry_in (pt 200 0).
Definition N3 : GraphicsNode := new_GraphicsNode proxy_N3 geometry_in2 (pt 0 200).

(** N1 is item 0, N2 is item 1. *)
Definition scene_A : Scene := mkScene [NodeItem N1; NodeItem N2] [].
Definition scene_B : Scene := mkScene [NodeItem N1; NodeItem N2_int] [].

Definition left_at (item_pos scene_pos : QPointF) : QGraphicsSceneMouseEvent :=
  mkMouseEvent LeftButton item_pos scene_pos.
Definition right_at (item_pos scene_pos : QPointF) : QGraphicsSceneMouseEvent :=
  mkMouseEvent RightButton item_pos scene_pos.

(** The pointer hovers port 0 of N1, then the primary button goes down. *)
Definition pressed (s : Scene) : option Scene :=
  s ← hoverMoveEvent 0 (pt 95 35) s;
  mousePressEvent 0 (left_at (pt 95 35) (pt 95 35)) s.

(** ... then the pointer is dragged over port 0 of N2; N2 filters the move
    event sent to N1. *)
Definition dragged (s : Scene) : option Scene :=
  s ← pressed s;
  sceneEventFilter 1 0 (GraphicsSceneMouseMove (left_at (pt 205 35) (pt 205 35))) s.

(** ... and the button is released there. *)
Definition released (s : Scene) : option Scene :=
  s ← dragged s;
  Some (mouseReleaseEvent 0 (left_at (pt 205 35) (pt 205 35)) s).

(** The scenes reached in scenario A after the press and after the drag. *)
Definition scene_A_pressed : Scene :=
  Eval vm_compute in default scene_A (pressed scene_A).
Definition scene_A_dragged : Scene :=
  Eval vm_compute in default scene_A (dragged scene_A).
Definition N1_dragging : GraphicsNode :=
  Eval vm_compute in default N1 (node_at scene_A_dragged 0).
Definition N2_hovered : GraphicsNode :=
  Eval vm_compute in default N2 (node_at scene_A_dragged 1).

Definition release_over_N2 : QGraphicsSceneMouseEvent :=
  left_at (pt 205 35) (pt 205 35).
Definition release_over_N1 : QGraphicsSceneMouseEvent :=
  left_at (pt 95 35) (pt 95 35).

(** A press at the same place right after a release over N1, without any
    pointer move in between, and a secondary-button press on N2. *)
Definition press_on_N1_port : QGraphicsSceneMouseEvent :=
  left_at (pt 95 35) (pt 95 35).
Definition scene_A_clicked : Scene :=
  Eval vm_compute in mouseReleaseEvent 0 release_over_N1 scene_A_pressed.
Definition right_press_on_N2 : QGraphicsSceneMouseEvent :=
  right_at (pt 50 30) (pt 250 30).

(** N3 alone; the pointer enters port 0, goes straight on to port 1, and the
    primary button goes down there. *)
Definition scene_N3 : Scene := mkScene [NodeItem N3] [].
Definition press_on_N3_port_1 : QGraphicsSceneMouseEvent :=
  left_at (pt 5 55) (pt 5 255).
Definition pressed_on_N3_port_1 : option Scene :=
  s ← hoverMoveEvent 0 (pt 5 35) scene_N3;
  s ← hoverMoveEvent 0 (pt 5 55) s;
  mousePressEvent 0 press_on_N3_port_1 s.

(** Scenario A after the drag, when the origin has lost its port meanwhile. *)
Definition N1_port_removed : GraphicsNode :=
  mkNode (mkProxy "N1" "source" []) (geometry N1_dragging)
    (scenePos N1_dragging) (isSelected N1_dragging)
    (ItemIsMovable N1_dragging) (update_requested N1_dragging)
    (is_node_hovered N1_dragging) (is_port_hovered N1_dragging)
    (has_connection_started N1_dragging) (port_index_from N1_dragging)
    (data_type_connecting N1_dragging).
Definition scene_A_port_removed : Scene :=
  put_node 0 N1_port_removed scene_A_dragged.
Definition move_over_N2 : QEvent :=
  GraphicsSceneMouseMove (left_at (pt 205 35) (pt 205 35)).

(** N1 selected, the pointer elsewhere. *)
Definition N1_selected : GraphicsNode :=
  mkNode proxy_N1 geometry_out (pt 0 0) true true false false [false] false 0 "".

(** A style with pairwise different colours and thicknesses. *)
Definition style : NodeStyle :=
  mkStyle (rgb 60 60 60) (rgb 0 0 0) (rgb 120 120 120) (rgb 200 200 200)
    (rgb 80 250 123) (rgb 255 255 255) (rgb 102 102 102)
    (inject_Z 1) (inject_Z 2) (inject_Z 3) (inject_Z 8)
    (inject_Z 6) (inject_Z 4)
    (λ data_type, if String.eqb data_type "float" then rgb 139 233 253
                  else rgb 255 184 108).

End Samples.

(* ===================================================================== *)
(** ** Basic facts about the scene operations *)
(* ===================================================================== *)

Section SceneFacts.

Implicit Types (s : Scene) (n : GraphicsNode) (f : GraphicsNode → GraphicsNode).

Lemma as_node_on_item f it : as_node (on_item f it) = f <$> as_node it.
Proof. by destruct it. Qed.

Lemma node_at_on_this_eq this f s :
  node_at (on_this this f s) this = f <$> node_at s this.
Proof.
  unfold node_at, on_this; simpl. rewrite list_lookup_alter_eq.
  destruct (scene_items s !! this) as [it|]; simpl; [apply as_node_on_item | done].
Qed.

Lemma node_at_on_this_ne this j f s :
  this ≠ j → node_at (on_this this f s) j = node_at s j.
Proof.
  intros Hne. unfold node_at, on_this; simpl.
  by rewrite list_lookup_alter_ne.
Qed.

Lemma node_at_clean_up s j :
  node_at (clean_up_port_color_state s) j
  = (λ node, update (set_data_type_connecting "" node)) <$> node_at s j.
Proof.
  unfold node_at, clean_up_port_color_state; simpl. rewrite list_lookup_fmap.
  destruct (scene_items s !! j) as [it|]; simpl; [apply as_node_on_item | done].
Qed.

Lemma node_at_emit sig s j : node_at (emit sig s) j = node_at s j.
Proof. done. Qed.

Lemma node_at_put_node_eq this n s :
  is_Some (node_at s this) → node_at (put_node this n s) this = Some n.
Proof.
  unfold node_at, put_node; simpl. intros [m Hm].
  destruct (scene_items s !! this) as [it|] eqn:Hit; [|done].
  rewrite list_lookup_insert_eq; [done|]. by eapply lookup_lt_Some.
Qed.

Lemma node_at_put_node_ne this j n s :
  this ≠ j → node_at (put_node this n s) j = node_at s j.
Proof.
  intros Hne. unfold node_at, put_node; simpl.
  by rewrite list_lookup_insert_ne.
Qed.

Lemma emitted_on_this this f s : emitted (on_this this f s) = emitted s.
Proof. done. Qed.

Lemma emitted_clean_up s : emitted (clean_up_port_color_state s) = emitted s.
Proof. done. Qed.

End SceneFacts.

(* ===================================================================== *)
(** ** The hover flags *)
(* ===================================================================== *)

Section HoverFlags.

Implicit Types (v : list bool) (rects : list QRectF).

Lemma find_true_Some v d :
  find_true v = Some d ↔
  v !! d = Some true ∧ ∀ j, (j < d)%nat → v !! j = Some false.
Proof.
  revert d. induction v as [|b v IH]; intros d; simpl.
  - split; [done | by intros [? _]].
  - destruct b.
    + split.
      * intros [= <-]. split; [done | lia].
      * intros [Hd Hlt]. destruct d as [|d]; [done|].
        specialize (Hlt 0%nat ltac:(lia)). done.
    + split.
      * intros (d' & Hf & ->)%fmap_Some. apply IH in Hf as [H1 H2].
        split; [done|]. intros [|j] Hj; [done|]. apply H2. lia.
      * intros [Hd Hlt]. destruct d as [|d]; [done|].
        apply fmap_Some. exists d. split; [|done].
        apply IH. split; [done|]. intros j Hj. apply (Hlt (S j)). lia.
Qed.

Lemma find_true_None v : find_true v = None ↔ none_hovered v.
Proof.
  unfold none_hovered. induction v as [|b v IH]; simpl.
  - split; [by intros _ i | done].
  - destruct b.
    + split; [done|]. intros H. by specialize (H 0%nat).
    + rewrite fmap_None, IH. split.
      * intros H [|i]; [done | apply H].
      * intros H i. apply (H (S i)).
Qed.

Lemma none_hovered_replicate k : none_hovered (replicate k false).
Proof.
  intros i Hi. apply lookup_replicate in Hi as [? _]. done.
Qed.

Lemma none_hovered_at_most_one v : none_hovered v → at_most_one_hovered v.
Proof. intros Hn i j Hi _. by destruct (Hn i). Qed.

Lemma first_hit_Some rects k0 p k :
  first_hit rects k0 p = Some k →
  (k0 ≤ k)%nat ∧ (k < k0 + length rects)%nat
  ∧ (∃ r, rects !! (k - k0)%nat = Some r ∧ contains r p = true)
  ∧ ∀ j r, (j < k - k0)%nat → rects !! j = Some r → contains r p = false.
Proof.
  revert k0. induction rects as [|r rects IH]; intros k0; simpl; [done|].
  destruct (contains r p) eqn:Hc.
  - intros [= <-]. replace (k0 - k0)%nat with 0%nat by lia.
    repeat split; [lia.. | by exists r | lia].
  - intros H. apply IH in H as (H1 & H2 & (r' & Hr' & Hc') & H4).
    replace (k - k0)%nat with (S (k - S k0)) by lia.
    repeat split; [lia.. | by exists r' |].
    intros [|j] r0 Hj; simpl; [by intros [= <-]|].
    apply H4. lia.
Qed.

Lemma first_hit_None rects k0 p :
  first_hit rects k0 p = None ↔ ∀ r, r ∈ rects → contains r p = false.
Proof.
  revert k0. induction rects as [|r rects IH]; intros k0; simpl.
  - split; [|done]. intros _ r Hr. by apply not_elem_of_nil in Hr.
  - destruct (contains r p) eqn:Hc.
    + split; [done|]. intros H. rewrite H in Hc; [done | left].
    + rewrite IH. split.
      * intros H r' [->|Hr']%elem_of_cons; [done | by apply H].
      * intros H r' Hr'. apply H. by right.
Qed.

(** The leave scan, when every index it visits is in range. *)
Lemma clear_first_hovered_spec count k0 v :
  (k0 + count ≤ length v)%nat →
  (∃ k, (k0 ≤ k < k0 + count)%nat ∧ v !! k = Some true
        ∧ (∀ j, (k0 ≤ j < k)%nat → v !! j = Some false)
        ∧ clear_first_hovered count k0 v = Some (<[k := false]> v, true))
  ∨ ((∀ j, (k0 ≤ j < k0 + count)%nat → v !! j = Some false)
     ∧ clear_first_hovered count k0 v = Some (v, false)).
Proof.
  revert k0. induction count as [|count IH]; intros k0 Hlen; simpl.
  - right. split; [lia | done].
  - destruct (lookup_lt_is_Some_2 v k0 ltac:(lia)) as [b Hb].
    rewrite Hb; simpl. destruct b.
    + left. exists k0. repeat split; [lia.. | done | lia].
    + destruct (IH (S k0) ltac:(lia)) as [(k & Hk & Hv & Hbefore & Heq)|[Hall Heq]].
      * left. exists k. repeat split; [lia.. | done | | done].
        intros j Hj. destruct (decide (j = k0)) as [->|]; [done|].
        apply Hbefore. lia.
      * right. split; [|done]. intros j Hj.
        destruct (decide (j = k0)) as [->|]; [done|]. apply Hall. lia.
Qed.

End HoverFlags.

Lemma get_hovered_port_index_nonneg n :
  0 ≤ get_hovered_port_index n ↔ ∃ k, is_port_hovered n !! k = Some true.
Proof.
  unfold get_hovered_port_index.
  destruct (find_true (is_port_hovered n)) as [d|] eqn:Hf.
  - split; [|lia]. intros _. apply find_true_Some in Hf as [Hd _]. by exists d.
  - apply find_true_None in Hf. split; [lia|]. intros [k Hk]. by destruct (Hf k).
Qed.

Lemma get_hovered_port_index_neg n :
  get_hovered_port_index n < 0 ↔ none_hovered (is_port_hovered n).
Proof.
  unfold get_hovered_port_index.
  destruct (find_true (is_port_hovered n)) as [d|] eqn:Hf.
  - split; [lia|]. intros Hn. apply find_true_Some in Hf as [Hd _].
    by destruct (Hn d).
  - apply find_true_None in Hf. split; [done | lia].
Qed.

Lemma get_hovered_port_index_first n k :
  get_hovered_port_index n = Z.of_nat k ↔
  is_port_hovered n !! k = Some true
  ∧ ∀ j, (j < k)%nat → is_port_hovered n !! j = Some false.
Proof.
  rewrite <- find_true_Some. unfold get_hovered_port_index.
  destruct (find_true (is_port_hovered n)) as [d|].
  - split; [intros ?%Nat2Z.inj; by subst | by intros [= ->]].
  - split; [lia | done].
Qed.

(* ===================================================================== *)
(** ** Releasing the primary button during a drag *)
(* ===================================================================== *)

Section Release.

Variables (this : nat) (event : QGraphicsSceneMouseEvent) (s : Scene)
          (me : GraphicsNode).
Hypothesis Hme : node_at s this = Some me.
Hypothesis Hbutton : button event = LeftButton.
Hypothesis Hdrag : has_connection_started me = true.

Lemma release_emitted :
  emitted (mouseReleaseEvent this event s)
  = emitted s
    ++ match release_scan this (port_index_from me) s
               (items_at s (event_scenePos event)) with
       | (finished, is_dropped) =>
           option_list finished
           ++ (if is_dropped
               then [connection_dropped this (port_index_from me)
                                        (event_scenePos event)]
               else [])
       end.
Proof.
  unfold mouseReleaseEvent. rewrite Hme, Hbutton, Hdrag.
  destruct (release_scan _ _ _ _) as [[sig|] [|]]; simpl;
    rewrite ?app_nil_r, <- ?app_assoc; done.
Qed.

Lemma release_node_at_this :
  node_at (mouseReleaseEvent this event s) this = Some (released_origin me).
Proof.
  unfold mouseReleaseEvent. rewrite Hme, Hbutton, Hdrag.
  destruct (release_scan _ _ _ _) as [[sig|] [|]];
    rewrite !node_at_on_this_eq, node_at_clean_up, node_at_on_this_eq,
      ?node_at_emit, node_at_on_this_eq, ?node_at_emit, Hme; done.
Qed.

Lemma release_node_at_other j :
  j ≠ this →
  node_at (mouseReleaseEvent this event s) j
  = (λ node, update (set_data_type_connecting "" node)) <$> node_at s j.
Proof.
  intros Hne. unfold mouseReleaseEvent. rewrite Hme, Hbutton, Hdrag.
  destruct (release_scan _ _ _ _) as [[sig|] [|]];
    rewrite !node_at_on_this_ne, node_at_clean_up, node_at_on_this_ne,
      ?node_at_emit, node_at_on_this_ne, ?node_at_emit by done; done.
Qed.

Lemma release_scan_no_node from (l : list nat) :
  (∀ i, i ∈ l → node_at s i = None) →
  release_scan this from s l = (None, true).
Proof.
  induction l as [|i l IH]; intros Hnone; simpl; [done|].
  rewrite (Hnone i) by left. apply IH. intros j Hj. apply Hnone. by right.
Qed.

Lemma release_scan_first_node from (pre post : list nat) t target :
  (∀ i, i ∈ pre → node_at s i = None) →
  node_at s t = Some target →
  release_scan this from s (pre ++ t :: post)
  = if 0 <=? get_hovered_port_index target
    then (Some (connection_finished this from t (get_hovered_port_index target)),
          false)
    else (None, true).
Proof.
  induction pre as [|i pre IH]; intros Hnone Ht; simpl.
  - by rewrite Ht.
  - rewrite (Hnone i) by left. apply IH; [|done].
    intros j Hj. apply Hnone. by right.
Qed.

End Release.

(** C1. A primary-button release during a drag is decided by the first view
    among the items under the release point, front-most first: if that view
    has a hovered port, [connection_finished] is emitted with the origin,
    the origin port, that view and its hovered port index; if it has none,
    or if no view is under the point, [connection_dropped] is emitted with
    the origin, the origin port and the release position.  Whatever lies
    behind the first view ([post]) plays no role. *)
Theorem release_first_view_decides this event s me :
  node_at s this = Some me →
  button event = LeftButton →
  has_connection_started me = true →
  let s' := mouseReleaseEvent this event s in
  let pos := event_scenePos event in
  let from := port_index_from me in
  (∀ pre t post target,
      items_at s pos = pre ++ t :: post →
      (∀ i, i ∈ pre → node_at s i = None) →
      node_at s t = Some target →
      ((∃ k, is_port_hovered target !! k = Some true) →
       emitted s' = emitted s
         ++ [connection_finished this from t (get_hovered_port_index target)])
      ∧ (none_hovered (is_port_hovered target) →
         emitted s' = emitted s ++ [connection_dropped this from pos]))
  ∧ ((∀ i, i ∈ items_at s pos → node_at s i = None) →
     emitted s' = emitted s ++ [connection_dropped this from pos]).
Proof.
  intros Hme Hbutton Hdrag s' pos from. subst s'.
  rewrite (release_emitted this event s me Hme Hbutton Hdrag).
  fold pos from. split.
  - intros pre t post target Hitems Hpre Ht. rewrite Hitems.
    rewrite (release_scan_first_node this s from pre post t target Hpre Ht).
    split.
    + intros Hk%get_hovered_port_index_nonneg.
      apply Z.leb_le in Hk. by rewrite Hk.
    + intros Hn%get_hovered_port_index_neg.
      apply Z.leb_gt in Hn. by rewrite Hn.
  - intros Hnone. by rewrite (release_scan_no_node this s from _ Hnone).
Qed.

Lemma release_first_view_decides_witness :
  emitted (mouseReleaseEvent 0 Samples.release_over_N2 Samples.scene_A_dragged)
  = emitted Samples.scene_A_dragged ++ [connection_finished 0 0 1 0].
Proof.
  pose proof (release_first_view_decides 0 Samples.release_over_N2
                Samples.scene_A_dragged Samples.N1_dragging
                eq_refl eq_refl eq_refl) as [Hfirst _].
  apply (Hfirst [] 1%nat [] Samples.N2_hovered).
  - reflexivity.
  - intros i Hi. inversion Hi.
  - reflexivity.
  - exists 0%nat. reflexivity.
Defined.

(** C3, as the spec states it, fails: in scenario A the target N2 keeps its
    hovered port after the release that connects N1 to it. *)
Lemma release_keeps_target_hover :
  Samples.dragged Samples.scene_A = Some Samples.scene_A_dragged
  ∧ (has_connection_started <$> node_at Samples.scene_A_dragged 0) = Some true
  ∧ ¬ cleanup_complete
        (mouseReleaseEvent 0 Samples.release_over_N2 Samples.scene_A_dragged).
Proof.
  split; [reflexivity|]. split; [reflexivity|].
  intros Hclean.
  destruct (Hclean 1%nat (update (set_data_type_connecting "" Samples.N2_hovered))
              eq_refl) as [_ Hnone].
  by apply (Hnone 0%nat).
Qed.

(** C3, amended. After the primary-button release that resolves a drag,
    every view of the scene has an empty [data_type_connecting]; the origin
    view has all its hover flags false, is no longer dragging and is movable
    again; the hover flags of every other view are what they were before
    the release. *)
Theorem release_cleanup this event s me :
  node_at s this = Some me →
  button event = LeftButton →
  has_connection_started me = true →
  let s' := mouseReleaseEvent this event s in
  (∀ j n', node_at s' j = Some n' → data_type_connecting n' = "")
  ∧ (∃ me', node_at s' this = Some me'
            ∧ none_hovered (is_port_hovered me')
            ∧ length (is_port_hovered me') = length (is_port_hovered me)
            ∧ has_connection_started me' = false
            ∧ ItemIsMovable me' = true)
  ∧ (∀ j n', j ≠ this → node_at s' j = Some n' →
       ∃ n, node_at s j = Some n ∧ is_port_hovered n' = is_port_hovered n).
Proof.
  intros Hme Hbutton Hdrag s'. subst s'.
  pose proof (release_node_at_this this event s me Hme Hbutton Hdrag) as Hthis.
  pose proof (release_node_at_other this event s me Hme Hbutton Hdrag) as Hother.
  split; [|split].
  - intros j n' Hj. destruct (decide (j = this)) as [->|Hne].
    + rewrite Hthis in Hj. by injection Hj as <-.
    + rewrite (Hother j Hne) in Hj.
      apply fmap_Some in Hj as (n & _ & ->). done.
  - exists (released_origin me). split; [done|]. simpl.
    split; [apply none_hovered_replicate|].
    split; [apply length_replicate | done].
  - intros j n' Hne Hj. rewrite (Hother j Hne) in Hj.
    apply fmap_Some in Hj as (n & Hn & ->). by exists n.
Qed.

Lemma release_cleanup_witness :
  ∃ me',
    node_at (mouseReleaseEvent 0 Samples.release_over_N2 Samples.scene_A_dragged)
            0 = Some me'
    ∧ none_hovered (is_port_hovered me')
    ∧ length (is_port_hovered me') = length (is_port_hovered Samples.N1_dragging)
    ∧ has_connection_started me' = false
    ∧ ItemIsMovable me' = true.
Proof.
  exact (proj1 (proj2 (release_cleanup 0 Samples.release_over_N2
                         Samples.scene_A_dragged Samples.N1_dragging
                         eq_refl eq_refl eq_refl))).
Defined.

(* ===================================================================== *)
(** ** The hover update *)
(* ===================================================================== *)

Section HoverUpdate.

Implicit Types (v : list bool) (rects : list QRectF) (p q : QPointF).

Lemma update_flags_hit rects v p k :
  first_hit rects 0 p = Some k → (k < length v)%nat →
  update_flags rects v p = Some (<[k := true]> v, true).
Proof.
  intros Hhit Hk. unfold update_flags. rewrite Hhit.
  destruct (lookup_lt_is_Some_2 v k Hk) as [b ->]. done.
Qed.

(** With one flag per rectangle the update never leaves its vectors, and an
    update that reports no change leaves no flag set. *)
Lemma update_flags_sized rects v p :
  length rects = length v →
  ∃ v' changed, update_flags rects v p = Some (v', changed)
    ∧ length v' = length v
    ∧ (changed = false → v' = v ∧ none_hovered v)
    ∧ (∀ k, first_hit rects 0 p = Some k → v' = <[k := true]> v).
Proof.
  intros Hlen. unfold update_flags.
  destruct (first_hit rects 0 p) as [k|] eqn:Hhit.
  - apply first_hit_Some in Hhit as (_ & Hk & _).
    destruct (lookup_lt_is_Some_2 v k ltac:(lia)) as [b ->]; simpl.
    eexists _, _. split; [done|]. split; [by rewrite length_insert|].
    split; [done|]. by intros k' [= <-].
  - destruct (clear_first_hovered_spec (length rects) 0 v ltac:(lia))
      as [(k & Hk & Hv & Hbefore & ->)|[Hall ->]].
    + eexists _, _. split; [done|]. split; [by rewrite length_insert|]. done.
    + eexists _, _. split; [done|]. split; [done|]. split; [|done].
      intros _. split; [done|]. intros j Hj.
      rewrite Hall in Hj; [done|]. apply lookup_lt_Some in Hj. lia.
Qed.

Lemma update_flags_miss_clears_first rects v p :
  length rects = length v →
  first_hit rects 0 p = None →
  at_most_one_hovered v →
  ∃ v' changed, update_flags rects v p = Some (v', changed)
                ∧ none_hovered v'.
Proof.
  intros Hlen Hmiss Hone. unfold update_flags. rewrite Hmiss.
  destruct (clear_first_hovered_spec (length rects) 0 v ltac:(lia))
    as [(k & Hk & Hv & Hbefore & ->)|[Hall ->]].
  - eexists _, _. split; [done|]. intros j Hj.
    destruct (decide (j = k)) as [->|Hne].
    + rewrite list_lookup_insert_eq in Hj; [done|]. by eapply lookup_lt_Some.
    + rewrite list_lookup_insert_ne in Hj by done. by specialize (Hone _ _ Hj Hv).
  - eexists _, _. split; [done|]. intros j Hj.
    rewrite Hall in Hj; [done|]. apply lookup_lt_Some in Hj. lia.
Qed.

(** From a state without any flag the update does keep the flags
    exclusive; it is the move from one port straight to another that does
    not. *)
Lemma update_flags_from_none rects v p v' changed :
  none_hovered v →
  update_flags rects v p = Some (v', changed) →
  at_most_one_hovered v'.
Proof.
  intros Hnone. unfold update_flags.
  destruct (first_hit rects 0 p) as [k|].
  - destruct (v !! k) as [b|] eqn:Hk; simpl; [|done].
    intros [= <- <-] i j Hi Hj.
    destruct (decide (i = k)) as [->|Hik], (decide (j = k)) as [->|Hjk];
      [done | | |].
    + rewrite list_lookup_insert_ne in Hj by done. by destruct (Hnone j).
    + rewrite list_lookup_insert_ne in Hi by done. by destruct (Hnone i).
    + rewrite list_lookup_insert_ne in Hi by done. by destruct (Hnone i).
  - generalize 0%nat at 1. generalize (length rects). intros count.
    induction count as [|count IH]; intros k0; simpl.
    + intros [= <- <-]. by apply none_hovered_at_most_one.
    + destruct (v !! k0) as [[|]|] eqn:Hk0; simpl; [|by apply IH|done].
      by destruct (Hnone k0).
Qed.

Lemma find_true_insert v k :
  none_hovered v → (k < length v)%nat →
  find_true (<[k := true]> v) = Some k.
Proof.
  intros Hnone Hk. apply find_true_Some. split.
  - by apply list_lookup_insert_eq.
  - intros j Hj. rewrite list_lookup_insert_ne by lia.
    destruct (lookup_lt_is_Some_2 v j ltac:(lia)) as [[|] Hb]; [|done].
    by destruct (Hnone j).
Qed.

End HoverUpdate.

(** C4. The hover update does not keep the flags exclusive.  N3 has two
    ports; hovering port 0 from the initial state flags it alone, and a
    following update whose point lies in the hit rectangle of port 1 flags
    port 1 and returns at once, with port 0 still flagged: two entries are
    true after a single call that started from an exclusive state. *)
Theorem update_is_port_hovered_keeps_previous_flag :
  let hovering_0 := set_is_port_hovered [true; false] Samples.N3 in
  update_is_port_hovered (Samples.pt 5 35) Samples.N3 = Some (hovering_0, true)
  ∧ at_most_one_hovered (is_port_hovered hovering_0)
  ∧ update_is_port_hovered (Samples.pt 5 55) hovering_0
    = Some (set_is_port_hovered [true; true] Samples.N3, true)
  ∧ ¬ at_most_one_hovered [true; true].
Proof.
  simpl. split; [reflexivity|]. split; [|split; [reflexivity|]].
  - intros [|[|i]] [|[|j]] Hi Hj; simpl in *; done.
  - intros Hone. by specialize (Hone 0%nat 1%nat eq_refl eq_refl).
Qed.

(* ===================================================================== *)
(** ** The relay: [sceneEventFilter] on a pointer move during a drag *)
(* ===================================================================== *)

Section Relay.

Lemma PortType_eqb_eq a b : PortType_eqb a b = true ↔ a = b.
Proof. destruct a, b; simpl; split; congruence. Qed.

Lemma ports_compatible_spec from_port to_port :
  ports_compatible from_port to_port = true ↔
  port_type from_port ≠ port_type to_port
  ∧ port_data_type from_port = port_data_type to_port.
Proof.
  unfold ports_compatible.
  rewrite negb_true_iff, orb_false_iff, negb_false_iff, String.eqb_eq.
  rewrite <- not_true_iff_false, PortType_eqb_eq. done.
Qed.

Variables (node : GraphicsNode) (proxy : NodeProxy) (from_port : Port).
Hypothesis Hfrom :
  at_index (proxy_ports (p_node_proxy node)) (port_index_from node)
  = Some from_port.

Lemma check_port_spec k v :
  (k < length v)%nat → (k < length (proxy_ports proxy))%nat →
  ∃ v', check_port node proxy k v = Some v'
        ∧ length v' = length v
        ∧ v' !! k = checked proxy from_port k <$> v !! k
        ∧ ∀ j, j ≠ k → v' !! j = v !! j.
Proof.
  intros Hk Hkp. unfold check_port, checked.
  destruct (lookup_lt_is_Some_2 v k Hk) as [b Hb].
  destruct (lookup_lt_is_Some_2 _ k Hkp) as [to_port Hto].
  rewrite Hb, Hto; simpl. destruct b; simpl.
  - unfold get_port_type, get_data_type. rewrite Hfrom; simpl.
    unfold at_index. destruct (Z.ltb_spec (Z.of_nat k) 0) as [|_]; [lia|].
    rewrite Nat2Z.id, Hto; simpl. unfold ports_compatible.
    destruct (PortType_eqb _ _ || negb (_ =? _)%string); simpl.
    + eexists. split; [done|]. rewrite length_insert.
      split; [done|]. split; [by rewrite list_lookup_insert_eq|].
      intros j Hj. by rewrite list_lookup_insert_ne.
    + eexists. split; [done|]. done.
  - eexists. split; [done|]. done.
Qed.

Lemma check_ports_spec count k0 v :
  (k0 + count ≤ length v)%nat →
  (k0 + count ≤ length (proxy_ports proxy))%nat →
  ∃ v', for_range count k0 (check_port node proxy) v = Some v'
        ∧ length v' = length v
        ∧ ∀ j, v' !! j = if decide (k0 ≤ j < k0 + count)%nat
                         then checked proxy from_port j <$> v !! j else v !! j.
Proof.
  revert k0 v. induction count as [|count IH]; intros k0 v Hv Hp; simpl.
  - exists v. split; [done|]. split; [done|]. intros j.
    case_decide; [lia | done].
  - destruct (check_port_spec k0 v ltac:(lia) ltac:(lia))
      as (v1 & -> & Hlen1 & Hk0 & Hrest); simpl.
    destruct (IH (S k0) v1 ltac:(lia) ltac:(lia)) as (v' & -> & Hlen' & Hv').
    exists v'. split; [done|]. split; [lia|]. intros j. rewrite Hv'.
    destruct (decide (j = k0)) as [->|Hne].
    + rewrite decide_False by lia. rewrite decide_True by lia. done.
    + destruct (decide (S k0 ≤ j < S k0 + count)%nat).
      * rewrite decide_True by lia. by rewrite Hrest.
      * rewrite decide_False by lia. by rewrite Hrest.
Qed.

End Relay.

Lemma relay_move_spec this watched mouse_event s me node from_port :
  node_at s this = Some me →
  node_at s watched = Some node →
  has_connection_started node = true →
  view_sized me →
  at_index (proxy_ports (p_node_proxy node)) (port_index_from node)
  = Some from_port →
  ∃ me' v0 changed,
    sceneEventFilter this watched (GraphicsSceneMouseMove mouse_event) s
    = Some (put_node this me' s)
    ∧ update_flags (port_rects (geometry me)) (is_port_hovered me)
        (sub (event_scenePos mouse_event) (scenePos me)) = Some (v0, changed)
    ∧ p_node_proxy me' = p_node_proxy me
    ∧ data_type_connecting me' = data_type_connecting node
    ∧ has_connection_started me' = has_connection_started me
    ∧ port_index_from me' = port_index_from me
    ∧ ∀ k, is_port_hovered me' !! k
           = checked (p_node_proxy me) from_port k <$> v0 !! k.
Proof.
  intros Hme Hnode Hdrag [Hflags Hrects] Hfrom.
  unfold sceneEventFilter. rewrite Hme, Hnode, Hdrag.
  set (item_pos := sub (event_scenePos mouse_event) (scenePos me)).
  set (me1 := if negb (data_type_connecting me =? data_type_connecting node)%string
              then update (set_data_type_connecting (data_type_connecting node) me)
              else me).
  assert (p_node_proxy me1 = p_node_proxy me ∧ geometry me1 = geometry me
          ∧ is_port_hovered me1 = is_port_hovered me
          ∧ has_connection_started me1 = has_connection_started me
          ∧ port_index_from me1 = port_index_from me
          ∧ data_type_connecting me1 = data_type_connecting node)
    as (Hp1 & Hg1 & Hv1 & Hs1 & Hi1 & Hd1).
  { subst me1.
    destruct (String.eqb_spec (data_type_connecting me)
                (data_type_connecting node)) as [Heq|Hne]; simpl; done. }
  unfold update_is_port_hovered. rewrite Hg1, Hv1.
  destruct (update_flags_sized (port_rects (geometry me)) (is_port_hovered me)
              item_pos ltac:(congruence))
    as (v0 & changed & Hupd & Hlen0 & Hsame & _).
  rewrite Hupd; simpl. destruct changed.
  - destruct (check_ports_spec node (p_node_proxy me) from_port Hfrom
                (get_nports (p_node_proxy me)) 0 v0)
      as (v' & Hloop & _ & Hv'); [unfold get_nports in *; simpl; lia.. |].
    simpl. rewrite Hp1, Hloop; simpl.
    eexists _, v0, true. split; [done|]. split; [done|]. simpl.
    repeat (split; [done|]). intros k. rewrite Hv'.
    case_decide as Hk; [done|].
    rewrite lookup_ge_None_2; [done|]. unfold get_nports in *. lia.
  - destruct (Hsame eq_refl) as [-> Hnone].
    eexists _, _, false. split; [done|]. split; [done|]. simpl.
    repeat (split; [done|]). intros k.
    destruct (is_port_hovered me !! k) as [[|]|] eqn:Hk; simpl; [|done..].
    by destruct (Hnone k).
Qed.

(** C2. During a drag, after a view has handled a relayed pointer move, each
    of its hovered ports has a direction different from the origin port's
    and the origin port's data type; and the port the move made hovered
    (the first whose hit rectangle holds the point) is left hovered exactly
    when it is compatible in that sense. *)
Theorem relay_leaves_only_compatible_hover this watched mouse_event s me node :
  node_at s this = Some me →
  node_at s watched = Some node →
  has_connection_started node = true →
  view_sized me →
  is_Some (at_index (proxy_ports (p_node_proxy node)) (port_index_from node)) →
  ∃ s' me',
    sceneEventFilter this watched (GraphicsSceneMouseMove mouse_event) s = Some s'
    ∧ node_at s' this = Some me'
    ∧ (∀ k, is_port_hovered me' !! k = Some true →
            compatible (p_node_proxy node) (port_index_from node)
                       (p_node_proxy me) k)
    ∧ (∀ k, first_hit (port_rects (geometry me)) 0
              (sub (event_scenePos mouse_event) (scenePos me)) = Some k →
            (is_port_hovered me' !! k = Some true ↔
             compatible (p_node_proxy node) (port_index_from node)
                        (p_node_proxy me) k)).
Proof.
  intros Hme Hnode Hdrag Hsized [from_port Hfrom].
  destruct (relay_move_spec this watched mouse_event s me node from_port
              Hme Hnode Hdrag Hsized Hfrom)
    as (me' & v0 & changed & Hrun & Hupd & _ & _ & _ & _ & Hv').
  assert (∀ k, is_port_hovered me' !! k = Some true ↔
               v0 !! k = Some true
               ∧ compatible (p_node_proxy node) (port_index_from node)
                            (p_node_proxy me) k) as Hiff.
  { intros k. rewrite Hv'. unfold checked, compatible. split.
    - intros (b & Hb & Hc)%fmap_Some. symmetry in Hc.
      apply andb_true_iff in Hc as [-> Hc]. split; [done|].
      destruct (proxy_ports (p_node_proxy me) !! k) as [to_port|]; [|done].
      apply ports_compatible_spec in Hc as [? ?]. by exists from_port, to_port.
    - intros [-> (fp & to_port & Hfp & -> & Hc)]. simpl.
      rewrite Hfrom in Hfp. injection Hfp as <-.
      by apply ports_compatible_spec in Hc as ->. }
  exists (put_node this me' s), me'. split; [done|].
  split; [apply node_at_put_node_eq; by rewrite Hme|]. split.
  - intros k Hk. by apply Hiff in Hk as [_ ?].
  - intros k Hhit. rewrite Hiff.
    destruct Hsized as [Hflags Hrects].
    destruct (update_flags_sized (port_rects (geometry me)) (is_port_hovered me)
                (sub (event_scenePos mouse_event) (scenePos me))
                ltac:(congruence))
      as (v0' & changed' & Hupd' & _ & _ & Hset).
    rewrite Hupd in Hupd'. injection Hupd' as <- <-.
    rewrite (Hset k Hhit).
    apply first_hit_Some in Hhit as (_ & Hk & _).
    rewrite list_lookup_insert_eq by lia. tauto.
Qed.

Lemma relay_leaves_only_compatible_hover_witness :
  ∃ s' me',
    sceneEventFilter 1 0 Samples.move_over_N2 Samples.scene_A_pressed = Some s'
    ∧ node_at s' 1 = Some me'
    ∧ is_port_hovered me' !! 0%nat = Some true.
Proof.
  destruct (relay_leaves_only_compatible_hover 1 0
              (Samples.left_at (Samples.pt 205 35) (Samples.pt 205 35))
              Samples.scene_A_pressed Samples.N2
              (default Samples.N1 (node_at Samples.scene_A_pressed 0))
              eq_refl eq_refl eq_refl (conj eq_refl eq_refl)
              (ex_intro _ _ eq_refl))
    as (s' & me' & Hrun & Hme' & _ & Hhit).
  exists s', me'. split; [exact Hrun|]. split; [exact Hme'|].
  apply (Hhit 0%nat eq_refl).
  exists (mkPort OUT "float" "out"), (mkPort IN "float" "in").
  repeat split; [discriminate].
Defined.

(* ===================================================================== *)
(** ** Pressing a button *)
(* ===================================================================== *)

Lemma press_left_on_hovered_port this event s me h port :
  node_at s this = Some me →
  button event = LeftButton →
  get_hovered_port_index me = Z.of_nat h →
  proxy_ports (p_node_proxy me) !! h = Some port →
  ∃ s' me',
    mousePressEvent this event s = Some s'
    ∧ node_at s' this = Some me'
    ∧ has_connection_started me' = true
    ∧ port_index_from me' = Z.of_nat h
    ∧ data_type_connecting me' = port_data_type port
    ∧ ItemIsMovable me' = false
    ∧ emitted s' = emitted s ++ [connection_started this (Z.of_nat h)]
    ∧ ∀ j, j ≠ this → node_at s' j = node_at s j.
Proof.
  intros Hme Hbutton Hh Hport. unfold mousePressEvent.
  rewrite Hme, Hbutton, Hh.
  destruct (Z.leb_spec 0 (Z.of_nat h)) as [_|]; [|lia].
  unfold get_data_type, at_index.
  destruct (Z.ltb_spec (Z.of_nat h) 0) as [|_]; [lia|].
  rewrite Nat2Z.id, Hport; simpl.
  eexists _, _. split; [done|].
  split; [rewrite node_at_emit; apply node_at_put_node_eq; by rewrite Hme|].
  simpl. repeat (split; [done|]).
  intros j Hne. by rewrite node_at_emit, node_at_put_node_ne.
Qed.

(** C5, as the spec states it, fails: the press handler never looks at the
    position of the press, it asks the hover tracker.  (a) A press inside the
    hit rectangle of port 0 of N1 that no hover move preceded starts no
    drag.  (b) The same after a click on that port (press, release, no
    pointer move): the release has reset the flags of the origin.  (c) On
    N3, after the pointer went from port 0 straight to port 1, a press
    inside the hit rectangle of port 1 starts the drag from port 0. *)
Lemma press_ignores_press_position :
  (first_hit (port_rects (geometry Samples.N1)) 0
     (event_pos Samples.press_on_N1_port) = Some 0%nat
   ∧ mousePressEvent 0 Samples.press_on_N1_port Samples.scene_A
     = Some Samples.scene_A)
  ∧ (Samples.pressed Samples.scene_A = Some Samples.scene_A_pressed
     ∧ mouseReleaseEvent 0 Samples.release_over_N1 Samples.scene_A_pressed
       = Samples.scene_A_clicked
     ∧ mousePressEvent 0 Samples.press_on_N1_port Samples.scene_A_clicked
       = Some Samples.scene_A_clicked
     ∧ (has_connection_started <$> node_at Samples.scene_A_clicked 0)
       = Some false)
  ∧ (first_hit (port_rects (geometry Samples.N3)) 0
       (event_pos Samples.press_on_N3_port_1) = Some 1%nat
     ∧ (emitted <$> Samples.pressed_on_N3_port_1)
       = Some [connection_started 0 0]
     ∧ (Samples.pressed_on_N3_port_1 ≫= λ s, port_index_from <$> node_at s 0)
       = Some 0).
Proof. repeat split; reflexivity. Qed.

(** C5, amended. A primary-button press on a view whose hover tracker has a
    port flagged, [h] being the first flagged index and a port of the
    proxy, leaves the view dragging from [h], with the data type of port
    [h], not movable, and emits [connection_started] with the view and [h];
    the other views are untouched.  A primary-button press on a view with
    no flagged port changes nothing.  The position of the press is not
    tested against the port rectangles. *)
Theorem press_starts_drag_from_hovered_port this event s me :
  node_at s this = Some me →
  button event = LeftButton →
  (∀ h port,
      get_hovered_port_index me = Z.of_nat h →
      proxy_ports (p_node_proxy me) !! h = Some port →
      ∃ s' me',
        mousePressEvent this event s = Some s'
        ∧ node_at s' this = Some me'
        ∧ has_connection_started me' = true
        ∧ port_index_from me' = Z.of_nat h
        ∧ data_type_connecting me' = port_data_type port
        ∧ ItemIsMovable me' = false
        ∧ emitted s' = emitted s ++ [connection_started this (Z.of_nat h)]
        ∧ ∀ j, j ≠ this → node_at s' j = node_at s j)
  ∧ (none_hovered (is_port_hovered me) → mousePressEvent this event s = Some s).
Proof.
  intros Hme Hbutton. split.
  - intros h port. by apply press_left_on_hovered_port.
  - intros Hnone%get_hovered_port_index_neg.
    unfold mousePressEvent. rewrite Hme, Hbutton.
    destruct (Z.leb_spec 0 (get_hovered_port_index me)); [lia | done].
Qed.

Lemma press_starts_drag_from_hovered_port_witness :
  ∃ s' me',
    mousePressEvent 0 Samples.press_on_N1_port
      (default Samples.scene_A (hoverMoveEvent 0 (Samples.pt 95 35) Samples.scene_A))
    = Some s'
    ∧ node_at s' 0 = Some me'
    ∧ has_connection_started me' = true
    ∧ port_index_from me' = 0
    ∧ data_type_connecting me' = "float".
Proof.
  destruct (proj1 (press_starts_drag_from_hovered_port 0 Samples.press_on_N1_port
              (default Samples.scene_A
                 (hoverMoveEvent 0 (Samples.pt 95 35) Samples.scene_A))
              (update (set_is_port_hovered [true] Samples.N1))
              eq_refl eq_refl) 0%nat (mkPort OUT "float" "out") eq_refl eq_refl)
    as (s' & me' & H1 & H2 & H3 & H4 & H5 & _).
  exists s', me'. repeat split; assumption.
Defined.

(** C9, as the spec states it, fails: a secondary-button press on N2 at
    scene position (250, 30) emits [right_clicked] with the scene position
    of N2 itself, (200, 0). *)
Lemma right_click_reports_view_position :
  mousePressEvent 1 Samples.right_press_on_N2 Samples.scene_A
  = Some (emit (right_clicked "N2" (Samples.pt 200 0)) Samples.scene_A)
  ∧ right_clicked "N2" (Samples.pt 200 0)
    ≠ right_clicked "N2" (event_scenePos Samples.right_press_on_N2).
Proof. split; [reflexivity | discriminate]. Qed.

(** C9, amended. A secondary-button press on a view emits [right_clicked]
    with the identifier of the node and the scene position of the view
    (the position of the item, not that of the pointer), and changes no
    item of the scene, so no drag starts or ends. *)
Theorem right_press_emits_right_clicked this event s me :
  node_at s this = Some me →
  button event = RightButton →
  ∃ s', mousePressEvent this event s = Some s'
        ∧ emitted s' = emitted s
            ++ [right_clicked (get_id (p_node_proxy me)) (scenePos me)]
        ∧ scene_items s' = scene_items s.
Proof.
  intros Hme Hbutton. unfold mousePressEvent. rewrite Hme, Hbutton.
  eexists. split; [done|]. done.
Qed.

Lemma right_press_emits_right_clicked_witness :
  ∃ s', mousePressEvent 1 Samples.right_press_on_N2 Samples.scene_A = Some s'
        ∧ emitted s' = [right_clicked "N2" (Samples.pt 200 0)]
        ∧ scene_items s' = scene_items Samples.scene_A.
Proof.
  exact (right_press_emits_right_clicked 1 Samples.right_press_on_N2
           Samples.scene_A Samples.N2 eq_refl eq_refl).
Defined.

(* ===================================================================== *)
(** ** The connecting data type *)
(* ===================================================================== *)

(** C6, as the spec states it, fails: right after the press on port 0 of N1
    the drag is in progress, but N2 has not handled any relayed move yet and
    its [data_type_connecting] is still empty. *)
Lemma press_does_not_mirror_data_type :
  Samples.pressed Samples.scene_A = Some Samples.scene_A_pressed
  ∧ ¬ data_type_mirrored Samples.scene_A_pressed.
Proof.
  split; [reflexivity|]. intros Hmirrored.
  specialize (Hmirrored 0%nat _ eq_refl eq_refl 1%nat _ eq_refl).
  discriminate Hmirrored.
Qed.

(** C6, amended. The press that starts a drag stores the data type of the
    origin port in the origin view only and leaves the other views as they
    were; a view that handles a relayed pointer move while the watched view
    is dragging ends with the [data_type_connecting] of the watched view,
    and the handler changes no other view. *)
Theorem data_type_set_by_press_mirrored_by_relay
    this watched event mouse_event s me node :
  node_at s this = Some me →
  node_at s watched = Some node →
  (button event = LeftButton →
   ∀ h port,
     get_hovered_port_index node = Z.of_nat h →
     proxy_ports (p_node_proxy node) !! h = Some port →
     ∃ s' origin,
       mousePressEvent watched event s = Some s'
       ∧ node_at s' watched = Some origin
       ∧ has_connection_started origin = true
       ∧ data_type_connecting origin = port_data_type port
       ∧ ∀ j, j ≠ watched → node_at s' j = node_at s j)
  ∧ (has_connection_started node = true →
     view_sized me →
     is_Some (at_index (proxy_ports (p_node_proxy node)) (port_index_from node)) →
     ∃ s' me',
       sceneEventFilter this watched (GraphicsSceneMouseMove mouse_event) s
       = Some s'
       ∧ node_at s' this = Some me'
       ∧ data_type_connecting me' = data_type_connecting node
       ∧ ∀ j, j ≠ this → node_at s' j = node_at s j).
Proof.
  intros Hme Hnode. split.
  - intros Hbutton h port Hh Hport.
    destruct (press_left_on_hovered_port watched event s node h port
                Hnode Hbutton Hh Hport)
      as (s' & origin & Hrun & Ho & Hs & _ & Hd & _ & _ & Hothers).
    by exists s', origin.
  - intros Hdrag Hsized [from_port Hfrom].
    destruct (relay_move_spec this watched mouse_event s me node from_port
                Hme Hnode Hdrag Hsized Hfrom)
      as (me' & v0 & changed & Hrun & _ & _ & Hd & _).
    exists (put_node this me' s), me'. split; [done|].
    split; [apply node_at_put_node_eq; by rewrite Hme|]. split; [done|].
    intros j Hne. by apply node_at_put_node_ne.
Qed.

Lemma data_type_set_by_press_mirrored_by_relay_witness :
  ∃ s' me',
    sceneEventFilter 1 0 Samples.move_over_N2 Samples.scene_A_pressed = Some s'
    ∧ node_at s' 1 = Some me'
    ∧ data_type_connecting me' = "float".
Proof.
  destruct (proj2 (data_type_set_by_press_mirrored_by_relay 1 0
              Samples.press_on_N1_port
              (Samples.left_at (Samples.pt 205 35) (Samples.pt 205 35))
              Samples.scene_A_pressed Samples.N2
              (default Samples.N1 (node_at Samples.scene_A_pressed 0))
              eq_refl eq_refl)
              eq_refl (conj eq_refl eq_refl) (ex_intro _ _ eq_refl))
    as (s' & me' & Hrun & Hme' & Hd & _).
  exists s', me'. split; [exact Hrun|]. split; [exact Hme'|]. exact Hd.
Defined.

(* ===================================================================== *)
(** ** Port indices and port metadata *)
(* ===================================================================== *)

Section ReplaceProxies.

Variable f : NodeProxy → NodeProxy.

Lemma node_at_replace_proxies s i :
  node_at (replace_proxies f s) i = with_proxy f <$> node_at s i.
Proof.
  unfold node_at, replace_proxies; simpl. rewrite list_lookup_fmap.
  destruct (scene_items s !! i) as [it|]; simpl; [apply as_node_on_item | done].
Qed.

Lemma items_at_from_replace_proxies its i0 p :
  items_at_from (on_item (with_proxy f) <$> its) i0 p = items_at_from its i0 p.
Proof.
  revert i0. induction its as [|it its IH]; intros i0; simpl; [done|].
  rewrite IH. by destruct it.
Qed.

Lemma release_scan_replace_proxies this from s l :
  release_scan this from (replace_proxies f s) l = release_scan this from s l.
Proof.
  induction l as [|i l IH]; simpl; [done|].
  rewrite node_at_replace_proxies, IH. by destruct (node_at s i).
Qed.

Lemma emit_replace_proxies sig s :
  emit sig (replace_proxies f s) = replace_proxies f (emit sig s).
Proof. done. Qed.

Lemma on_this_replace_proxies this h s :
  (∀ n, h (with_proxy f n) = with_proxy f (h n)) →
  on_this this h (replace_proxies f s) = replace_proxies f (on_this this h s).
Proof.
  intros Hcomm. unfold on_this, replace_proxies; simpl. f_equal.
  symmetry. apply list_fmap_alter, Forall_forall.
  intros [n|sh] _; simpl; [by rewrite Hcomm | done].
Qed.

Lemma clean_up_replace_proxies s :
  clean_up_port_color_state (replace_proxies f s)
  = replace_proxies f (clean_up_port_color_state s).
Proof.
  unfold clean_up_port_color_state, replace_proxies; simpl. f_equal.
  rewrite <- !list_fmap_compose. apply list_fmap_ext.
  by intros _ [n|sh] _.
Qed.

(** The release handler commutes with a change of the port metadata. *)
Lemma release_replace_proxies this event s :
  mouseReleaseEvent this event (replace_proxies f s)
  = replace_proxies f (mouseReleaseEvent this event s).
Proof.
  unfold mouseReleaseEvent. rewrite node_at_replace_proxies.
  destruct (node_at s this) as [me|]; simpl; [|done].
  destruct (button event); [|done..].
  destruct (has_connection_started me); [|done].
  unfold items_at; simpl.
  rewrite items_at_from_replace_proxies, release_scan_replace_proxies.
  destruct (release_scan _ _ _ _) as [[sig|] [|]];
    repeat first [ rewrite emit_replace_proxies
                 | rewrite on_this_replace_proxies by done
                 | rewrite clean_up_replace_proxies ];
    done.
Qed.

End ReplaceProxies.

(** C7, as the spec states it, fails: no handler compares a port index with
    a port count.  When the origin has lost its port during the drag, its
    [port_index_from] (0) lies outside its port count (0); a release over the
    hovered port of N2 still emits [connection_finished] with that index
    instead of resolving to a drop, and a relayed move over the port of N2
    asks the origin's proxy for the metadata of port 0. *)
Lemma stale_origin_index_is_not_ignored :
  node_at Samples.scene_A_port_removed 0 = Some Samples.N1_port_removed
  ∧ get_nports (p_node_proxy Samples.N1_port_removed) = 0%nat
  ∧ port_index_from Samples.N1_port_removed = 0
  ∧ emitted (mouseReleaseEvent 0 Samples.release_over_N2
               Samples.scene_A_port_removed)
    = [connection_started 0 0; connection_finished 0 0 1 0]
  ∧ sceneEventFilter 1 0 Samples.move_over_N2 Samples.scene_A_port_removed
    = None.
Proof. repeat split; reflexivity. Qed.

(** C7, amended. A view that filters an event sent to a watched view makes
    only in-range accesses, provided the watched view's [port_index_from]
    is a port of its own proxy and the filtering view holds one flag and one
    hit rectangle per port; the handler itself makes no range check.  The
    release handler reads no port metadata at all: replacing every proxy of
    the scene by another one changes nothing else in its result, so an
    origin index outside the port count has no influence on the outcome. *)
Theorem filter_reads_in_range_release_reads_no_metadata
    this watched event s me node :
  node_at s this = Some me →
  node_at s watched = Some node →
  view_sized me →
  0 ≤ port_index_from node < Z.of_nat (get_nports (p_node_proxy node)) →
  is_Some (sceneEventFilter this watched event s)
  ∧ ∀ release_event f,
      mouseReleaseEvent this release_event (replace_proxies f s)
      = replace_proxies f (mouseReleaseEvent this release_event s).
Proof.
  intros Hme Hnode Hsized Hrange. split.
  - destruct event as [mouse_event|].
    + destruct (has_connection_started node) eqn:Hdrag.
      * assert (is_Some (at_index (proxy_ports (p_node_proxy node))
                           (port_index_from node))) as [from_port Hfrom].
        { unfold at_index. destruct (Z.ltb_spec (port_index_from node) 0); [lia|].
          apply lookup_lt_is_Some_2. unfold get_nports in Hrange. lia. }
        destruct (relay_move_spec this watched mouse_event s me node from_port
                    Hme Hnode Hdrag Hsized Hfrom) as (me' & ? & ? & -> & _).
        done.
      * unfold sceneEventFilter. by rewrite Hme, Hnode, Hdrag.
    + unfold sceneEventFilter. by rewrite Hme, Hnode.
  - intros release_event f. apply release_replace_proxies.
Qed.

Lemma filter_reads_in_range_release_reads_no_metadata_witness :
  is_Some (sceneEventFilter 1 0 Samples.move_over_N2 Samples.scene_A_pressed).
Proof.
  exact (proj1 (filter_reads_in_range_release_reads_no_metadata 1 0
                  Samples.move_over_N2 Samples.scene_A_pressed Samples.N2
                  (default Samples.N1 (node_at Samples.scene_A_pressed 0))
                  eq_refl eq_refl (conj eq_refl eq_refl)
                  (conj (Z.le_refl 0) eq_refl))).
Defined.

(* ===================================================================== *)
(** ** Releasing over the origin itself *)
(* ===================================================================== *)

Lemma hoverMoveEvent_hit this pos s me k :
  node_at s this = Some me →
  first_hit (port_rects (geometry me)) 0
    (sub (mapToScene me pos) (scenePos me)) = Some k →
  (k < length (is_port_hovered me))%nat →
  hoverMoveEvent this pos s
  = Some (put_node this
            (update (set_is_port_hovered (<[k := true]> (is_port_hovered me)) me))
            s).
Proof.
  intros Hme Hhit Hk. unfold hoverMoveEvent, update_is_port_hovered.
  rewrite Hme. by rewrite (update_flags_hit _ _ _ k Hhit Hk).
Qed.

(** What the amended C5 means for a pointer that arrives on a port: from a
    view without any flag, a hover move whose item position (as the handler
    computes it) lies in the hit rectangle of port [k], followed by a
    primary-button press, starts the drag from [k]. *)
Lemma hover_then_press_starts_drag this pos event s me k port :
  node_at s this = Some me →
  none_hovered (is_port_hovered me) →
  first_hit (port_rects (geometry me)) 0
    (sub (mapToScene me pos) (scenePos me)) = Some k →
  (k < length (is_port_hovered me))%nat →
  proxy_ports (p_node_proxy me) !! k = Some port →
  button event = LeftButton →
  ∃ s1 s2 origin,
    hoverMoveEvent this pos s = Some s1
    ∧ mousePressEvent this event s1 = Some s2
    ∧ node_at s2 this = Some origin
    ∧ has_connection_started origin = true
    ∧ port_index_from origin = Z.of_nat k
    ∧ data_type_connecting origin = port_data_type port
    ∧ emitted s2 = emitted s ++ [connection_started this (Z.of_nat k)].
Proof.
  intros Hme Hnone Hhit Hk Hport Hbutton.
  pose proof (hoverMoveEvent_hit this pos s me k Hme Hhit Hk) as Hhover.
  set (me1 := update (set_is_port_hovered (<[k := true]> (is_port_hovered me)) me))
    in Hhover.
  destruct (press_left_on_hovered_port this event (put_node this me1 s) me1 k port)
    as (s2 & origin & Hpress & Ho & Hs & Hi & Hd & _ & He & _);
    [apply node_at_put_node_eq; by rewrite Hme | done | | done |].
  { unfold get_hovered_port_index; simpl. by rewrite find_true_insert. }
  by exists (put_node this me1 s), s2, origin.
Qed.

(** C10. When the primary button is released during a drag and the first
    view under the release point is the origin itself, with a port still
    flagged as hovered, [connection_finished] is emitted with the origin as
    source and as target; nothing about the directions or data types of the
    two ports is assumed, no such test is made at release time.  The flags
    of the origin come from its own hover handler, which flags the first
    port whose hit rectangle holds the item position it computes from the
    event (the event position mapped to the scene, minus the scene position
    of the view), whatever the port metadata. *)
Theorem release_over_origin_self_connects this event s me :
  node_at s this = Some me →
  (button event = LeftButton →
   has_connection_started me = true →
   ∀ pre post,
     items_at s (event_scenePos event) = pre ++ this :: post →
     (∀ i, i ∈ pre → node_at s i = None) →
     (∃ k, is_port_hovered me !! k = Some true) →
     emitted (mouseReleaseEvent this event s)
     = emitted s ++ [connection_finished this (port_index_from me)
                                         this (get_hovered_port_index me)])
  ∧ (∀ pos k,
       first_hit (port_rects (geometry me)) 0
         (sub (mapToScene me pos) (scenePos me)) = Some k →
       (k < length (is_port_hovered me))%nat →
       ∃ s' me',
         hoverMoveEvent this pos s = Some s'
         ∧ node_at s' this = Some me'
         ∧ is_port_hovered me' = <[k := true]> (is_port_hovered me)).
Proof.
  intros Hme. split.
  - intros Hbutton Hdrag pre post Hitems Hpre Hk.
    rewrite (release_emitted this event s me Hme Hbutton Hdrag), Hitems.
    rewrite (release_scan_first_node this s _ pre post this me Hpre Hme).
    apply get_hovered_port_index_nonneg, Z.leb_le in Hk. by rewrite Hk.
  - intros pos k Hhit Hk. eexists _, _.
    split; [by apply hoverMoveEvent_hit|].
    split; [apply node_at_put_node_eq; by rewrite Hme | done].
Qed.

Lemma release_over_origin_self_connects_witness :
  emitted (mouseReleaseEvent 0 Samples.release_over_N1 Samples.scene_A_pressed)
  = [connection_started 0 0; connection_finished 0 0 0 0]
  ∧ ¬ compatible Samples.proxy_N1 0 Samples.proxy_N1 0.
Proof.
  split.
  - apply (proj1 (release_over_origin_self_connects 0 Samples.release_over_N1
                    Samples.scene_A_pressed
                    (default Samples.N1 (node_at Samples.scene_A_pressed 0))
                    eq_refl) eq_refl eq_refl [] []).
    + reflexivity.
    + intros i Hi. inversion Hi.
    + exists 0%nat. reflexivity.
  - intros (from_port & to_port & Hfrom & Hto & Hdir & _).
    injection Hfrom as <-. injection Hto as <-. by apply Hdir.
Defined.

(* ===================================================================== *)
(** ** The outline of a port *)
(* ===================================================================== *)

Section Paint.

Variables (style : NodeStyle) (me : GraphicsNode).

Lemma paint_port_shape k calls :
  paint_port style me k = Some calls →
  ∃ hovered label brush c r,
    is_port_hovered me !! k = Some hovered
    ∧ calls = [label; drawEllipse (outline_pen style me hovered) brush c r r].
Proof.
  unfold paint_port, port_pen. intros Hrun.
  destruct (get_port_type _ _) as [ptype|]; simpl in Hrun; [|done].
  destruct (port_label_rects _ !! k) as [label_rect|]; simpl in Hrun; [|done].
  destruct (get_port_caption _ _) as [caption|]; simpl in Hrun; [|done].
  destruct (is_port_hovered me !! k) as [hovered|]; simpl in Hrun; [|done].
  destruct (get_data_type _ _) as [data_type|]; simpl in Hrun; [|done].
  destruct (negb _ && negb _);
    (destruct (port_rects _ !! k) as [rect|]; simpl in Hrun; [|done]);
    injection Hrun as <-; eexists _, _, _, _, _; split; reflexivity.
Qed.

Lemma paint_port_in_range k :
  view_sized me →
  length (port_label_rects (geometry me)) = get_nports (p_node_proxy me) →
  (k < get_nports (p_node_proxy me))%nat →
  is_Some (paint_port style me k).
Proof.
  intros [Hflags Hrects] Hlabels Hk. unfold get_nports in *.
  destruct (lookup_lt_is_Some_2 (proxy_ports (p_node_proxy me)) k Hk) as [port Hport].
  destruct (lookup_lt_is_Some_2 (is_port_hovered me) k ltac:(lia)) as [b Hb].
  destruct (lookup_lt_is_Some_2 (port_rects (geometry me)) k ltac:(lia)) as [r Hr].
  destruct (lookup_lt_is_Some_2 (port_label_rects (geometry me)) k ltac:(lia))
    as [lr Hlr].
  unfold paint_port, port_pen, get_port_type, get_port_caption, get_data_type,
    at_index.
  destruct (Z.ltb_spec (Z.of_nat k) 0); [lia|].
  rewrite Nat2Z.id, Hport, Hb, Hlr; simpl.
  destruct (negb _ && negb _); by rewrite Hr.
Qed.

Lemma paint_loop_in_range count k0 init :
  view_sized me →
  length (port_label_rects (geometry me)) = get_nports (p_node_proxy me) →
  (k0 + count ≤ get_nports (p_node_proxy me))%nat →
  is_Some (for_range count k0 (paint_step style me) init).
Proof.
  intros Hsized Hlabels. revert k0 init.
  induction count as [|count IH]; intros k0 init Hle; simpl; [done|].
  unfold paint_step.
  destruct (paint_port_in_range k0 Hsized Hlabels ltac:(lia)) as [pc ->]; simpl.
  apply IH. lia.
Qed.

(** The calls of port [k] sit at a fixed place in the output of the loop. *)
Lemma paint_loop_lookup count k0 init out :
  for_range count k0 (paint_step style me) init = Some out →
  (∀ i, (i < length init)%nat → out !! i = init !! i)
  ∧ ∀ k, (k0 ≤ k < k0 + count)%nat →
      ∃ hovered label brush c r,
        is_port_hovered me !! k = Some hovered
        ∧ out !! (length init + 2 * (k - k0))%nat = Some label
        ∧ out !! (length init + 2 * (k - k0) + 1)%nat
          = Some (drawEllipse (outline_pen style me hovered) brush c r r).
Proof.
  revert k0 init. induction count as [|count IH]; intros k0 init Hrun.
  - injection Hrun as <-. split; [done | lia].
  - cbn [for_range] in Hrun.
    destruct (paint_step style me k0 init) as [acc|] eqn:Hstep;
      simpl in Hrun; [|done].
    unfold paint_step in Hstep.
    destruct (paint_port style me k0) as [pc|] eqn:Hport;
      simpl in Hstep; [|done].
    injection Hstep as <-.
    apply IH in Hrun as [Hprefix Hports].
    apply paint_port_shape in Hport
      as (hovered & label & brush & c & r & Hhov & ->).
    rewrite length_app in *; cbn [length] in *. split.
    + intros i Hi. rewrite Hprefix by lia. by rewrite lookup_app_l.
    + intros k Hk. destruct (decide (k = k0)) as [->|Hne].
      * exists hovered, label, brush, c, r. split; [done|].
        replace (length init + 2 * (k0 - k0))%nat with (length init + 0)%nat
          by lia.
        rewrite !Hprefix by lia.
        rewrite !lookup_app_r by lia.
        replace (length init + 0 - length init)%nat with 0%nat by lia.
        replace (length init + 0 + 1 - length init)%nat with 1%nat by lia.
        done.
      * destruct (Hports k ltac:(lia))
          as (hovered' & label' & brush' & c' & r' & Hhov' & Hl & He).
        exists hovered', label', brush', c', r'. split; [done|].
        replace (length init + 2 * (k - k0))%nat
          with (length init + 2 + 2 * (k - S k0))%nat by lia.
        done.
Qed.

End Paint.

(** C8, as the spec states it, fails: selection plays no role in the outline
    of a port.  N1 selected, with neither the node nor the port hovered, has
    its port circle drawn with the default border colour and thickness. *)
Lemma selected_node_port_outline_is_default :
  isSelected Samples.N1_selected = true
  ∧ ∃ calls brush c r,
      paint Samples.style Samples.N1_selected = Some calls
      ∧ calls !! 4%nat
        = Some (drawEllipse (Pen (color_border Samples.style)
                                 (thickness_border Samples.style)) brush c r r)
      ∧ Pen (color_border Samples.style) (thickness_border Samples.style)
        ≠ Pen (color_selected Samples.style) (thickness_selected Samples.style).
Proof.
  split; [reflexivity|]. eexists _, _, _, _.
  split; [reflexivity|]. split; [reflexivity | discriminate].
Qed.

(** C8, amended. In every evaluation of [paint] on a view with one flag,
    one hit rectangle and one label rectangle per port, the circle of port
    [k] (the call after its label, the ports following the three calls of
    the body) is outlined with the port-hover colour and the selection
    thickness when the flag of that port is set, otherwise with the
    node-hover colour and thickness when the node is hovered, otherwise
    with the default border colour and thickness; whether the node is
    selected is not consulted. *)
Theorem port_outline_hovered_port_then_hovered_node style me k :
  view_sized me →
  length (port_label_rects (geometry me)) = get_nports (p_node_proxy me) →
  (k < get_nports (p_node_proxy me))%nat →
  ∃ calls (hovered : bool) brush c r,
    paint style me = Some calls
    ∧ is_port_hovered me !! k = Some hovered
    ∧ calls !! (3 + 2 * k + 1)%nat
      = Some (drawEllipse
                (if hovered
                 then Pen (color_port_hovered style) (thickness_selected style)
                 else if is_node_hovered me
                      then Pen (color_border_hovered style)
                               (thickness_hovered style)
                      else Pen (color_border style) (thickness_border style))
                brush c r r).
Proof.
  intros Hsized Hlabels Hk. unfold paint.
  match goal with
  | |- context [for_range _ _ _ ?init] =>
      destruct (paint_loop_in_range style me (get_nports (p_node_proxy me)) 0
                  init Hsized Hlabels ltac:(lia)) as [calls Hrun];
      destruct (paint_loop_lookup style me _ _ init calls Hrun) as [_ Hports]
  end.
  destruct (Hports k ltac:(lia)) as (hovered & label & brush & c & r & Hhov & _ & He).
  exists calls, hovered, brush, c, r. split; [exact Hrun|]. split; [done|].
  simpl in He. by replace (k - 0)%nat with k in He by lia.
Qed.

Lemma port_outline_hovered_port_then_hovered_node_witness :
  ∃ calls (hovered : bool) brush c r,
    paint Samples.style Samples.N1_selected = Some calls
    ∧ is_port_hovered Samples.N1_selected !! 0%nat = Some hovered
    ∧ calls !! 4%nat
      = Some (drawEllipse
                (if hovered
                 then Pen (color_port_hovered Samples.style)
                          (thickness_selected Samples.style)
                 else Pen (color_border Samples.style)
                          (thickness_border Samples.style))
                brush c r r).
Proof.
  exact (port_outline_hovered_port_then_hovered_node Samples.style
           Samples.N1_selected 0 (conj eq_refl eq_refl) eq_refl
           (Nat.lt_0_succ 0)).
Defined.

(* ===================================================================== *)
(** ** Further properties of the hover tracker *)
(* ===================================================================== *)

Section HoverTracker.

Implicit Types (v : list bool) (rects : list QRectF).

Lemma count_hovered_none v : count_hovered v = 0%nat ↔ none_hovered v.
Proof.
  unfold none_hovered. induction v as [|b v IH]; simpl.
  - split; [by intros _ i | done].
  - destruct b; simpl.
    + split; [done|]. intros H. by specialize (H 0%nat).
    + rewrite IH. split.
      * intros H [|i]; [done | apply H].
      * intros H i. apply (H (S i)).
Qed.

Lemma count_hovered_clear v k :
  v !! k = Some true →
  count_hovered (<[k := false]> v) = pred (count_hovered v).
Proof.
  revert k. induction v as [|b v IH]; intros [|k] Hk; simpl in *; try done.
  - by injection Hk as ->.
  - rewrite (IH k Hk). destruct b; simpl; [|done].
    destruct (count_hovered v) eqn:Hc; [|done].
    apply count_hovered_none in Hc. by destruct (Hc k).
Qed.

Lemma miss_step rects v p :
  length rects = length v →
  first_hit rects 0 p = None →
  ∃ v' changed,
    update_flags rects v p = Some (v', changed)
    ∧ length v' = length v
    ∧ count_hovered v' = pred (count_hovered v).
Proof.
  intros Hlen Hmiss. unfold update_flags. rewrite Hmiss.
  destruct (clear_first_hovered_spec (length rects) 0 v ltac:(lia))
    as [(k & Hk & Hv & Hbefore & ->)|[Hall ->]].
  - eexists _, _. split; [done|]. split; [by rewrite length_insert|].
    by apply count_hovered_clear.
  - eexists _, _. split; [done|]. split; [done|].
    assert (count_hovered v = 0%nat) as ->; [|done].
    apply count_hovered_none. intros j Hj.
    rewrite Hall in Hj; [done|]. apply lookup_lt_Some in Hj. lia.
Qed.

End HoverTracker.

(** X1. [get_hovered_port_index] returns -1 exactly when no flag is set;
    otherwise it returns the index of the first set flag, which lies inside
    the flag vector. *)
Theorem get_hovered_port_index_first_flag n :
  (get_hovered_port_index n = -1 ∧ none_hovered (is_port_hovered n))
  ∨ (∃ k, get_hovered_port_index n = Z.of_nat k
          ∧ (k < length (is_port_hovered n))%nat
          ∧ is_port_hovered n !! k = Some true
          ∧ ∀ j, (j < k)%nat → is_port_hovered n !! j = Some false).
Proof.
  unfold get_hovered_port_index.
  destruct (find_true (is_port_hovered n)) as [d|] eqn:Hf.
  - right. exists d. apply find_true_Some in Hf as [Hd Hbefore].
    split; [done|]. split; [by eapply lookup_lt_Some | done].
  - left. split; [done|]. by apply find_true_None.
Qed.

(** X2. A hover update whose point lies in the hit rectangle of port [k]
    (the first such port) reports a change, sets the flag of [k] and leaves
    every other flag as it was; repeating the update at the same point
    reports a change again and leaves the view as it is.  When the view has
    no flag for [k] the write is out of range. *)
Theorem hover_hit_sets_flag_of_first_hit p n k :
  first_hit (port_rects (geometry n)) 0 p = Some k →
  ((k < length (is_port_hovered n))%nat →
   ∃ n', update_is_port_hovered p n = Some (n', true)
         ∧ is_port_hovered n' !! k = Some true
         ∧ (∀ j, j ≠ k → is_port_hovered n' !! j = is_port_hovered n !! j)
         ∧ update_is_port_hovered p n' = Some (n', true))
  ∧ ((length (is_port_hovered n) ≤ k)%nat →
     update_is_port_hovered p n = None).
Proof.
  intros Hhit. unfold update_is_port_hovered. split.
  - intros Hk. rewrite (update_flags_hit _ _ _ k Hhit Hk); simpl.
    eexists. split; [done|]. simpl.
    split; [by apply list_lookup_insert_eq|].
    split; [intros j Hj; by apply list_lookup_insert_ne|].
    rewrite (update_flags_hit _ _ _ k Hhit) by (by rewrite length_insert).
    simpl. by rewrite list_insert_insert_eq.
  - intros Hk. unfold update_flags. rewrite Hhit.
    by rewrite (lookup_ge_None_2 _ _ Hk).
Qed.

Lemma hover_hit_sets_flag_of_first_hit_witness :
  ∃ n', update_is_port_hovered (Samples.pt 5 55) Samples.N3 = Some (n', true)
        ∧ is_port_hovered n' !! 1%nat = Some true
        ∧ update_is_port_hovered (Samples.pt 5 55) n' = Some (n', true).
Proof.
  destruct (proj1 (hover_hit_sets_flag_of_first_hit (Samples.pt 5 55)
                     Samples.N3 1 eq_refl) (Nat.lt_succ_diag_r 1))
    as (n' & H1 & H2 & _ & H3).
  exists n'. split; [exact H1|]. split; [exact H2 | exact H3].
Defined.

(** X3. A hover update whose point lies in no hit rectangle, on a view with
    at least one flag per rectangle: if a flag is set among those of the
    rectangles, the first one is cleared, all the others are kept and a
    change is reported; if none is set, the view is returned as it is and no
    change is reported. *)
Theorem hover_miss_clears_first_flag p n :
  first_hit (port_rects (geometry n)) 0 p = None →
  (length (port_rects (geometry n)) ≤ length (is_port_hovered n))%nat →
  (∃ k, (k < length (port_rects (geometry n)))%nat
        ∧ is_port_hovered n !! k = Some true
        ∧ (∀ j, (j < k)%nat → is_port_hovered n !! j = Some false)
        ∧ update_is_port_hovered p n
          = Some (set_is_port_hovered (<[k := false]> (is_port_hovered n)) n,
                  true))
  ∨ ((∀ j, (j < length (port_rects (geometry n)))%nat →
           is_port_hovered n !! j = Some false)
     ∧ update_is_port_hovered p n = Some (n, false)).
Proof.
  intros Hmiss Hlen. unfold update_is_port_hovered, update_flags.
  rewrite Hmiss.
  destruct (clear_first_hovered_spec (length (port_rects (geometry n))) 0
              (is_port_hovered n) ltac:(lia))
    as [(k & Hk & Hv & Hbefore & ->)|[Hall ->]]; simpl.
  - left. exists k. split; [lia|]. split; [done|]. split; [|done].
    intros j Hj. apply Hbefore. lia.
  - right. split; [intros j Hj; apply Hall; lia|]. by destruct n.
Qed.

Lemma hover_miss_clears_first_flag_witness :
  update_is_port_hovered (Samples.pt 50 50)
    (set_is_port_hovered [true; true] Samples.N3)
  = Some (set_is_port_hovered [false; true] Samples.N3, true).
Proof.
  destruct (hover_miss_clears_first_flag (Samples.pt 50 50)
              (set_is_port_hovered [true; true] Samples.N3) eq_refl
              (Nat.le_refl 2))
    as [(k & Hk & Hset & Hbefore & Hrun)|[Hall _]].
  - destruct k as [|[|k]].
    + exact Hrun.
    + discriminate (Hbefore 0%nat (Nat.lt_0_succ 0)).
    + discriminate Hset.
  - discriminate (Hall 0%nat (Nat.lt_0_succ 1)).
Defined.

(** X4. Leaving the ports clears one flag per update, so the flags left
    behind by a move from one port straight to another do not stay: on a
    view with one flag per hit rectangle, a run of updates whose points lie
    in no hit rectangle, at least as long as the number of set flags, ends
    with no flag set. *)
Theorem hover_misses_clear_every_flag ps n :
  length (port_rects (geometry n)) = length (is_port_hovered n) →
  (∀ p, p ∈ ps → first_hit (port_rects (geometry n)) 0 p = None) →
  (count_hovered (is_port_hovered n) ≤ length ps)%nat →
  ∃ n', hover_moves ps n = Some n'
        ∧ none_hovered (is_port_hovered n')
        ∧ length (is_port_hovered n') = length (is_port_hovered n).
Proof.
  revert n. induction ps as [|p ps IH]; intros n Hlen Hmiss Hcount; simpl.
  - exists n. split; [done|]. split; [|done].
    apply count_hovered_none. simpl in Hcount. lia.
  - unfold update_is_port_hovered.
    destruct (miss_step _ (is_port_hovered n) p Hlen (Hmiss p ltac:(left)))
      as (v' & changed & -> & Hlen' & Hc'); simpl.
    destruct (IH (set_is_port_hovered v' n)) as (n' & Hrun & Hnone & Hl).
    + simpl. congruence.
    + intros q Hq. simpl. apply Hmiss. by right.
    + simpl in *. lia.
    + exists n'. split; [done|]. split; [done|]. simpl in Hl. congruence.
Qed.

Lemma hover_misses_clear_every_flag_witness :
  ∃ n', hover_moves [Samples.pt 50 50; Samples.pt 60 50]
          (set_is_port_hovered [true; true] Samples.N3) = Some n'
        ∧ none_hovered (is_port_hovered n').
Proof.
  destruct (hover_misses_clear_every_flag [Samples.pt 50 50; Samples.pt 60 50]
              (set_is_port_hovered [true; true] Samples.N3) eq_refl)
    as (n' & Hrun & Hnone & _).
  - intros p Hp. apply list_elem_of_In in Hp.
    destruct Hp as [<-|[<-|[]]]; reflexivity.
  - apply Nat.le_refl.
  - exists n'. split; [exact Hrun | exact Hnone].
Defined.

(** X5. Starting from a view with no flag set, one hover update leaves at
    most one flag set, and [get_hovered_port_index] then names the port whose
    hit rectangle holds the point (or -1 when there is none). *)
Theorem hover_from_clean_view_is_exclusive p n n' changed :
  none_hovered (is_port_hovered n) →
  update_is_port_hovered p n = Some (n', changed) →
  at_most_one_hovered (is_port_hovered n')
  ∧ get_hovered_port_index n'
    = match first_hit (port_rects (geometry n)) 0 p with
      | Some k => Z.of_nat k
      | None => -1
      end.
Proof.
  intros Hnone. unfold update_is_port_hovered.
  destruct (update_flags _ _ _) as [[v' c]|] eqn:Hupd; simpl; [|done].
  intros [= <- <-]. split; [by eapply update_flags_from_none|].
  unfold get_hovered_port_index; simpl. revert Hupd. unfold update_flags.
  destruct (first_hit _ 0 p) as [k|].
  - destruct (is_port_hovered n !! k) as [b|] eqn:Hk; simpl; [|done].
    intros [= <- <-]. rewrite find_true_insert; [done..|].
    by eapply lookup_lt_Some.
  - intros Hclear.
    assert (v' = is_port_hovered n) as ->.
    { revert Hclear. generalize 0%nat. generalize (length (port_rects (geometry n))).
      intros count. induction count as [|count IH]; intros k0; simpl.
      - by intros [= <- <-].
      - destruct (is_port_hovered n !! k0) as [[|]|] eqn:Hk0; simpl; [|by apply IH|done].
        by destruct (Hnone k0). }
    apply find_true_None in Hnone. by rewrite Hnone.
Qed.

Lemma hover_from_clean_view_is_exclusive_witness :
  at_most_one_hovered [false; true]
  ∧ get_hovered_port_index (set_is_port_hovered [false; true] Samples.N3) = 1.
Proof.
  exact (hover_from_clean_view_is_exclusive (Samples.pt 5 55) Samples.N3
           (set_is_port_hovered [false; true] Samples.N3) true
           (none_hovered_replicate 2) eq_refl).
Defined.

(* ===================================================================== *)
(** ** Further properties of the handlers *)
(* ===================================================================== *)

Section HandlerShapes.

Implicit Types (s : Scene) (n me : GraphicsNode) (v : list bool).

Lemma same_layout_refl n : same_layout n n.
Proof. done. Qed.

Lemma scene_same_layout_refl s : scene_same_layout s s.
Proof. intros j. by destruct (node_at s j). Qed.

Lemma scene_same_layout_put this me me' s :
  node_at s this = Some me →
  same_layout me me' →
  scene_same_layout s (put_node this me' s).
Proof.
  intros Hme Hsame j. destruct (decide (j = this)) as [->|Hne].
  - rewrite node_at_put_node_eq by (by rewrite Hme). by rewrite Hme.
  - rewrite node_at_put_node_ne by done. by destruct (node_at s j).
Qed.

Lemma clear_first_hovered_length count k0 v v' changed :
  clear_first_hovered count k0 v = Some (v', changed) → length v' = length v.
Proof.
  revert k0. induction count as [|count IH]; intros k0; simpl.
  - by intros [= <- <-].
  - destruct (v !! k0) as [[|]|]; simpl; [|by apply IH|done].
    intros [= <- <-]. by rewrite length_insert.
Qed.

Lemma update_flags_length rects v p v' changed :
  update_flags rects v p = Some (v', changed) → length v' = length v.
Proof.
  unfold update_flags. destruct (first_hit rects 0 p) as [k|].
  - destruct (v !! k); simpl; [|done]. intros [= <- <-].
    by rewrite length_insert.
  - apply clear_first_hovered_length.
Qed.

Lemma check_port_length node proxy k v v' :
  check_port node proxy k v = Some v' → length v' = length v.
Proof.
  unfold check_port. destruct (v !! k) as [[|]|]; simpl; [| by intros [= <-] | done].
  destruct (get_port_type (p_node_proxy node) _); simpl; [|done].
  destruct (get_port_type proxy _); simpl; [|done].
  destruct (get_data_type (p_node_proxy node) _); simpl; [|done].
  destruct (get_data_type proxy _); simpl; [|done].
  destruct (_ || _); intros [= <-]; [by rewrite length_insert | done].
Qed.

Lemma check_ports_length node proxy count k0 v v' :
  for_range count k0 (check_port node proxy) v = Some v' →
  length v' = length v.
Proof.
  revert k0 v. induction count as [|count IH]; intros k0 v; simpl.
  - by intros [= <-].
  - destruct (check_port node proxy k0 v) as [v1|] eqn:Hstep; simpl; [|done].
    intros Hrest. apply IH in Hrest. apply check_port_length in Hstep.
    congruence.
Qed.

(** What a hover move can do to the scene. *)
Lemma hoverMoveEvent_shape this pos s s' :
  hoverMoveEvent this pos s = Some s' →
  s' = s
  ∨ ∃ me v upd,
      node_at s this = Some me
      ∧ length v = length (is_port_hovered me)
      ∧ s' = put_node this
               (mkNode (p_node_proxy me) (geometry me) (scenePos me)
                  (isSelected me) (ItemIsMovable me) upd (is_node_hovered me)
                  v (has_connection_started me) (port_index_from me)
                  (data_type_connecting me)) s.
Proof.
  unfold hoverMoveEvent, update_is_port_hovered.
  destruct (node_at s this) as [me|] eqn:Hme; [|intros [= <-]; by left].
  destruct (update_flags _ _ _) as [[v changed]|] eqn:Hupd; simpl; [|done].
  intros [= <-]. right. apply update_flags_length in Hupd.
  destruct changed; by eexists me, v, _.
Qed.

(** What the filter can do to the scene. *)
Lemma sceneEventFilter_shape this watched event s s' :
  sceneEventFilter this watched event s = Some s' →
  s' = s
  ∨ ∃ me node v upd,
      node_at s this = Some me
      ∧ node_at s watched = Some node
      ∧ has_connection_started node = true
      ∧ length v = length (is_port_hovered me)
      ∧ s' = put_node this
               (mkNode (p_node_proxy me) (geometry me) (scenePos me)
                  (isSelected me) (ItemIsMovable me) upd (is_node_hovered me)
                  v (has_connection_started me) (port_index_from me)
                  (data_type_connecting node)) s.
Proof.
  unfold sceneEventFilter.
  destruct (node_at s this) as [me|] eqn:Hme; [|intros [= <-]; by left].
  destruct (node_at s watched) as [node|] eqn:Hnode; [|intros [= <-]; by left].
  destruct event as [mouse_event|]; [|intros [= <-]; by left].
  destruct (has_connection_started node) eqn:Hdrag; [|intros [= <-]; by left].
  set (me1 := if negb (data_type_connecting me =? data_type_connecting node)%string
              then update (set_data_type_connecting (data_type_connecting node) me)
              else me).
  assert (∃ upd1, me1 = mkNode (p_node_proxy me) (geometry me) (scenePos me)
                    (isSelected me) (ItemIsMovable me) upd1 (is_node_hovered me)
                    (is_port_hovered me) (has_connection_started me)
                    (port_index_from me) (data_type_connecting node))
    as [upd1 ->].
  { subst me1.
    destruct (String.eqb_spec (data_type_connecting me)
                (data_type_connecting node)) as [Heq|Hne]; simpl.
    - exists (update_requested me). rewrite <- Heq. by destruct me.
    - by exists true. }
  unfold update_is_port_hovered; simpl.
  destruct (update_flags _ _ _) as [[v0 changed]|] eqn:Hupd; simpl; [|done].
  apply update_flags_length in Hupd. destruct changed; simpl.
  - destruct (for_range _ _ _ _) as [v|] eqn:Hloop; simpl; [|done].
    apply check_ports_length in Hloop. intros [= <-]. right.
    eexists me, node, v, _. repeat (split; [done || congruence|]). done.
  - intros [= <-]. right.
    eexists me, node, v0, _. repeat (split; [done|]). done.
Qed.

(** What a press can do to the scene. *)
Lemma mousePressEvent_shape this event s s' :
  mousePressEvent this event s = Some s' →
  s' = s
  ∨ (∃ me, node_at s this = Some me ∧ button event = RightButton
           ∧ s' = emit (right_clicked (get_id (p_node_proxy me)) (scenePos me)) s)
  ∨ (∃ me h data_type,
        node_at s this = Some me ∧ button event = LeftButton
        ∧ get_hovered_port_index me = h ∧ 0 ≤ h
        ∧ get_data_type (p_node_proxy me) h = Some data_type
        ∧ s' = emit (connection_started this h)
                 (put_node this
                    (mkNode (p_node_proxy me) (geometry me) (scenePos me)
                       (isSelected me) false (update_requested me)
                       (is_node_hovered me) (is_port_hovered me) true h
                       data_type) s)).
Proof.
  unfold mousePressEvent.
  destruct (node_at s this) as [me|] eqn:Hme; [|intros [= <-]; by left].
  destruct (button event) eqn:Hbutton.
  - destruct (Z.leb_spec 0 (get_hovered_port_index me)) as [Hh|Hh];
      [|intros [= <-]; by left].
    destruct (get_data_type _ _) as [data_type|] eqn:Hdt; simpl; [|done].
    intros [= <-]. right; right. by eexists me, _, data_type.
  - intros [= <-]. right; left. by exists me.
  - intros [= <-]. by left.
Qed.

(** What a release does to each view. *)
Lemma mouseReleaseEvent_views this event s :
  mouseReleaseEvent this event s = s
  ∨ ∃ me, node_at s this = Some me
          ∧ button event = LeftButton
          ∧ has_connection_started me = true
          ∧ node_at (mouseReleaseEvent this event s) this
            = Some (released_origin me)
          ∧ ∀ j, j ≠ this →
              node_at (mouseReleaseEvent this event s) j
              = (λ node, update (set_data_type_connecting "" node))
                <$> node_at s j.
Proof.
  destruct (node_at s this) as [me|] eqn:Hme;
    [|left; unfold mouseReleaseEvent; by rewrite Hme].
  destruct (button event) eqn:Hbutton;
    [|left; unfold mouseReleaseEvent; by rewrite Hme, Hbutton..].
  destruct (has_connection_started me) eqn:Hdrag;
    [|left; unfold mouseReleaseEvent; by rewrite Hme, Hbutton, Hdrag].
  right. exists me. repeat (split; [done|]). split.
  - by apply release_node_at_this.
  - intros j Hne. by apply (release_node_at_other this event s me).
Qed.

Lemma release_scan_cases this from s l :
  release_scan this from s l = (None, true)
  ∨ ∃ t target,
      t ∈ l ∧ node_at s t = Some target
      ∧ 0 ≤ get_hovered_port_index target
      ∧ release_scan this from s l
        = (Some (connection_finished this from t
                   (get_hovered_port_index target)), false).
Proof.
  induction l as [|i l IH]; simpl; [by left|].
  destruct (node_at s i) as [target|] eqn:Hi.
  - destruct (Z.leb_spec 0 (get_hovered_port_index target)); [|by left].
    right. exists i, target. split; [left|]. done.
  - destruct IH as [->|(t & target & Ht & Hn & Hh & ->)]; [by left|].
    right. exists t, target. split; [by right|]. done.
Qed.

End HandlerShapes.

(** X6. A primary-button release during a drag emits exactly one signal:
    either [connection_finished], and then its target is a view under the
    release point that has a hovered port and the reported target port is
    that view's hovered port index, or [connection_dropped] at the release
    position; never both, never none. *)
Theorem release_emits_exactly_one_signal this event s me :
  node_at s this = Some me →
  button event = LeftButton →
  has_connection_started me = true →
  (∃ t target,
      t ∈ items_at s (event_scenePos event)
      ∧ node_at s t = Some target
      ∧ 0 ≤ get_hovered_port_index target
      ∧ emitted (mouseReleaseEvent this event s)
        = emitted s ++ [connection_finished this (port_index_from me) t
                          (get_hovered_port_index target)])
  ∨ emitted (mouseReleaseEvent this event s)
    = emitted s ++ [connection_dropped this (port_index_from me)
                      (event_scenePos event)].
Proof.
  intros Hme Hbutton Hdrag.
  rewrite (release_emitted this event s me Hme Hbutton Hdrag).
  destruct (release_scan_cases this (port_index_from me) s
              (items_at s (event_scenePos event)))
    as [->|(t & target & Ht & Hn & Hh & ->)].
  - by right.
  - left. by exists t, target.
Qed.

Lemma release_emits_exactly_one_signal_witness :
  (∃ t target,
      t ∈ items_at Samples.scene_A_dragged
            (event_scenePos Samples.release_over_N2)
      ∧ node_at Samples.scene_A_dragged t = Some target
      ∧ 0 ≤ get_hovered_port_index target
      ∧ emitted (mouseReleaseEvent 0 Samples.release_over_N2
                   Samples.scene_A_dragged)
        = emitted Samples.scene_A_dragged
          ++ [connection_finished 0 (port_index_from Samples.N1_dragging) t
                (get_hovered_port_index target)])
  ∨ emitted (mouseReleaseEvent 0 Samples.release_over_N2
               Samples.scene_A_dragged)
    = emitted Samples.scene_A_dragged
      ++ [connection_dropped 0 (port_index_from Samples.N1_dragging)
            (event_scenePos Samples.release_over_N2)].
Proof.
  exact (release_emits_exactly_one_signal 0 Samples.release_over_N2
           Samples.scene_A_dragged Samples.N1_dragging
           eq_refl eq_refl eq_refl).
Defined.

(** X7. A release ends a drag once: after a primary-button release, a
    further release (any button, anywhere) changes nothing and emits
    nothing; and a release with another button, or on a view that is not
    dragging, changes nothing at all. *)
Theorem release_ends_the_drag_once this event event' s :
  button event = LeftButton →
  mouseReleaseEvent this event' (mouseReleaseEvent this event s)
  = mouseReleaseEvent this event s
  ∧ (button event' ≠ LeftButton → mouseReleaseEvent this event' s = s)
  ∧ ((has_connection_started <$> node_at s this) ≠ Some true →
     mouseReleaseEvent this event s = s).
Proof.
  intros Hbutton.
  assert (∀ ev s0, (has_connection_started <$> node_at s0 this) ≠ Some true →
                   mouseReleaseEvent this ev s0 = s0) as Hidle.
  { intros ev s0 Hd. unfold mouseReleaseEvent.
    destruct (node_at s0 this) as [me|]; [|done]. simpl in Hd.
    destruct (button ev); [|done..].
    destruct (has_connection_started me); [|done]. by destruct Hd. }
  split; [|split].
  - destruct (mouseReleaseEvent_views this event s)
      as [Hsame|(me & Hme & _ & Hdrag & Hthis & _)].
    + rewrite Hsame. apply Hidle. intros Hd.
      destruct (node_at s this) as [me|] eqn:Hme; [|done].
      injection Hd as Hdrag.
      pose proof (release_node_at_this this event s me Hme Hbutton Hdrag) as Hr.
      rewrite Hsame, Hme in Hr. injection Hr as Hr.
      rewrite Hr in Hdrag. done.
    + apply Hidle. by rewrite Hthis.
  - intros Hb. unfold mouseReleaseEvent.
    destruct (node_at s this); [|done]. by destruct (button event').
  - apply Hidle.
Qed.

Lemma release_ends_the_drag_once_witness :
  mouseReleaseEvent 0 Samples.release_over_N1
    (mouseReleaseEvent 0 Samples.release_over_N2 Samples.scene_A_dragged)
  = mouseReleaseEvent 0 Samples.release_over_N2 Samples.scene_A_dragged.
Proof.
  exact (proj1 (release_ends_the_drag_once 0 Samples.release_over_N2
                  Samples.release_over_N1 Samples.scene_A_dragged eq_refl)).
Defined.

(** X8. No handler adds, removes or moves a view, replaces a proxy or a
    geometry, or resizes a flag vector: after every handler that completes,
    the scene holds views at the same indices, each with the proxy,
    geometry, scene position and number of flags it had.  Hence a scene in
    which every view has one flag and one hit rectangle per port stays so. *)
Theorem handlers_keep_layout s :
  (∀ this, scene_same_layout s (hoverEnterEvent this s))
  ∧ (∀ this, scene_same_layout s (hoverLeaveEvent this s))
  ∧ (∀ this pos s',
       hoverMoveEvent this pos s = Some s' → scene_same_layout s s')
  ∧ (∀ this event s',
       mousePressEvent this event s = Some s' → scene_same_layout s s')
  ∧ (∀ this event, scene_same_layout s (mouseReleaseEvent this event s))
  ∧ (∀ this watched event s',
       sceneEventFilter this watched event s = Some s' →
       scene_same_layout s s')
  ∧ (∀ s', scene_same_layout s s' →
           (∀ j n, node_at s j = Some n → view_sized n) →
           ∀ j n', node_at s' j = Some n' → view_sized n').
Proof.
  split_and!.
  - intros this. unfold hoverEnterEvent.
    destruct (node_at s this) as [me|] eqn:Hme; [|apply scene_same_layout_refl].
    by apply (scene_same_layout_put this me).
  - intros this. unfold hoverLeaveEvent.
    destruct (node_at s this) as [me|] eqn:Hme; [|apply scene_same_layout_refl].
    by apply (scene_same_layout_put this me).
  - intros this pos s' [->|(me & v & upd & Hme & Hlen & ->)]%hoverMoveEvent_shape;
      [apply scene_same_layout_refl|].
    by apply (scene_same_layout_put this me).
  - intros this event s' Hrun. apply mousePressEvent_shape in Hrun
      as [->|[(me & _ & _ & ->)|(me & h & dt & Hme & _ & _ & _ & _ & ->)]];
      [apply scene_same_layout_refl
      |intros j; rewrite node_at_emit; apply (scene_same_layout_refl s j) |].
    intros j. rewrite node_at_emit.
    by apply (scene_same_layout_put this me).
  - intros this event.
    destruct (mouseReleaseEvent_views this event s)
      as [->|(me & Hme & _ & _ & Hthis & Hothers)];
      [apply scene_same_layout_refl|].
    intros j. destruct (decide (j = this)) as [->|Hne].
    + rewrite Hme, Hthis. repeat split. simpl. apply length_replicate.
    + rewrite (Hothers j Hne). by destruct (node_at s j).
  - intros this watched event s' Hrun. apply sceneEventFilter_shape in Hrun
      as [->|(me & node & v & upd & Hme & _ & _ & Hlen & ->)];
      [apply scene_same_layout_refl|].
    by apply (scene_same_layout_put this me).
  - intros s' Hsame Hsized j n' Hn'. specialize (Hsame j). rewrite Hn' in Hsame.
    destruct (node_at s j) as [n|] eqn:Hn; [|done].
    destruct Hsame as (Hp & Hg & _ & Hl), (Hsized j n Hn) as [H1 H2].
    unfold view_sized. rewrite Hp, Hg, Hl. done.
Qed.

(** X9. A hover move and the event filter write to the view that handles
    the event and to nothing else: no signal is emitted and every other
    view is left as it was, the watched view (the origin of the link)
    included; and the filter leaves the drag state of the filtering view
    (dragging or not, origin port, movable flag) untouched. *)
Theorem hover_and_filter_write_only_this_view this s :
  (∀ pos s',
     hoverMoveEvent this pos s = Some s' →
     emitted s' = emitted s ∧ ∀ j, j ≠ this → node_at s' j = node_at s j)
  ∧ (∀ watched event s',
       sceneEventFilter this watched event s = Some s' →
       emitted s' = emitted s
       ∧ (∀ j, j ≠ this → node_at s' j = node_at s j)
       ∧ ∀ me, node_at s this = Some me →
           ∃ me', node_at s' this = Some me'
                  ∧ has_connection_started me' = has_connection_started me
                  ∧ port_index_from me' = port_index_from me
                  ∧ ItemIsMovable me' = ItemIsMovable me).
Proof.
  split.
  - intros pos s' [->|(me & v & upd & Hme & _ & ->)]%hoverMoveEvent_shape;
      [done|].
    split; [done|]. intros j Hne. by apply node_at_put_node_ne.
  - intros watched event s' Hrun. apply sceneEventFilter_shape in Hrun
      as [->|(me & node & v & upd & Hme & _ & _ & _ & ->)].
    + split; [done|]. split; [done|]. intros me Hme. by exists me.
    + split; [done|]. split; [intros j Hne; by apply node_at_put_node_ne|].
      intros me0 Hme0. rewrite Hme in Hme0. injection Hme0 as <-.
      eexists. split; [apply node_at_put_node_eq; by rewrite Hme|]. done.
Qed.

(** X10. The press handler makes exactly one read of port metadata, the
    data type of the hovered port, and only for the primary button: a press
    on a view fails in an out-of-range read exactly when the button is the
    primary one and the hovered port index is not below the port count of
    the proxy (a flag vector longer than the proxy's port list). *)
Theorem press_reads_out_of_range_iff this event s me :
  node_at s this = Some me →
  (mousePressEvent this event s = None ↔
   button event = LeftButton
   ∧ Z.of_nat (get_nports (p_node_proxy me)) ≤ get_hovered_port_index me).
Proof.
  intros Hme. unfold mousePressEvent. rewrite Hme.
  destruct (button event).
  - destruct (Z.leb_spec 0 (get_hovered_port_index me)) as [Hh|Hh].
    + unfold get_data_type, at_index, get_nports.
      destruct (Z.ltb_spec (get_hovered_port_index me) 0) as [|_]; [lia|].
      destruct (proxy_ports (p_node_proxy me) !! _) as [port|] eqn:Hport; simpl.
      * split; [done|]. intros [_ Hge].
        apply lookup_lt_Some in Hport. lia.
      * split; [|done]. intros _. split; [done|].
        apply lookup_ge_None in Hport. lia.
    + split; [done|]. intros [_ Hge]. lia.
  - split; [done | by intros [? _]].
  - split; [done | by intros [? _]].
Qed.

Lemma press_reads_out_of_range_iff_witness :
  mousePressEvent 0 Samples.press_on_N1_port
    (put_node 0 Samples.N1_port_removed Samples.scene_A_dragged) = None.
Proof.
  apply (proj2 (press_reads_out_of_range_iff 0 Samples.press_on_N1_port
                  (put_node 0 Samples.N1_port_removed Samples.scene_A_dragged)
                  Samples.N1_port_removed eq_refl)).
  split; [reflexivity | exact (Z.le_refl 0)].
Defined.

(* ===================================================================== *)
(** ** Whole gestures *)
(* ===================================================================== *)

Section Gestures.

Implicit Types (s : Scene) (me : GraphicsNode).

Lemma items_at_from_insert its i it it' i0 p :
  its !! i = Some it →
  item_contains it' p = item_contains it p →
  items_at_from (<[i := it']> its) i0 p = items_at_from its i0 p.
Proof.
  revert i i0. induction its as [|x its IH]; intros [|i] i0 Hi Hc; simpl in *;
    try done.
  - injection Hi as ->. by rewrite Hc.
  - by rewrite (IH i (S i0) Hi Hc).
Qed.

Lemma items_at_put_node this me me' s p :
  node_at s this = Some me →
  geometry me' = geometry me →
  scenePos me' = scenePos me →
  items_at (put_node this me' s) p = items_at s p.
Proof.
  unfold node_at, items_at, put_node; simpl. intros Hme Hg Hp.
  destruct (scene_items s !! this) as [[n|sh]|] eqn:Hit; simpl in Hme; [|done..].
  injection Hme as ->.
  apply (items_at_from_insert _ _ (NodeItem me)); [done|].
  simpl. by rewrite Hg, Hp.
Qed.

Lemma press_left_result this event s me h data_type :
  node_at s this = Some me →
  button event = LeftButton →
  get_hovered_port_index me = h → 0 ≤ h →
  get_data_type (p_node_proxy me) h = Some data_type →
  mousePressEvent this event s
  = Some (emit (connection_started this h)
            (put_node this
               (mkNode (p_node_proxy me) (geometry me) (scenePos me)
                  (isSelected me) false (update_requested me)
                  (is_node_hovered me) (is_port_hovered me) true h data_type)
               s)).
Proof.
  intros Hme Hbutton Hh Hpos Hdt. unfold mousePressEvent.
  rewrite Hme, Hbutton, Hh, Hdt.
  by destruct (Z.leb_spec 0 h); [|lia].
Qed.

End Gestures.

(** X11. A click on a port connects the port to itself: on a view with no
    flag set, a hover move whose item position, as the handler computes it
    (the event position mapped to the scene, minus the scene position of
    the view), lies in the hit rectangle of port [k], a primary-button press
    and a primary-button release at a point where this view is the first
    view under the pointer emit [connection_started] for port [k] and then
    [connection_finished] from port [k] of the view to port [k] of the same
    view. *)
Theorem click_on_port_connects_it_to_itself
    this pos press release s me k port pre post :
  node_at s this = Some me →
  none_hovered (is_port_hovered me) →
  first_hit (port_rects (geometry me)) 0
    (sub (mapToScene me pos) (scenePos me)) = Some k →
  (k < length (is_port_hovered me))%nat →
  proxy_ports (p_node_proxy me) !! k = Some port →
  button press = LeftButton →
  button release = LeftButton →
  items_at s (event_scenePos release) = pre ++ this :: post →
  (∀ i, i ∈ pre → node_at s i = None) →
  ∃ s1 s2,
    hoverMoveEvent this pos s = Some s1
    ∧ mousePressEvent this press s1 = Some s2
    ∧ emitted (mouseReleaseEvent this release s2)
      = emitted s ++ [connection_started this (Z.of_nat k);
                      connection_finished this (Z.of_nat k)
                                          this (Z.of_nat k)].
Proof.
  intros Hme Hnone Hhit Hk Hport Hpress Hrelease Hitems Hpre.
  set (me1 := update (set_is_port_hovered (<[k := true]> (is_port_hovered me)) me)).
  set (s1 := put_node this me1 s).
  assert (node_at s1 this = Some me1) as Hme1
    by (apply node_at_put_node_eq; by rewrite Hme).
  assert (get_hovered_port_index me1 = Z.of_nat k) as Hidx.
  { unfold get_hovered_port_index; simpl. by rewrite find_true_insert. }
  assert (get_data_type (p_node_proxy me1) (Z.of_nat k)
          = Some (port_data_type port)) as Hdt.
  { unfold get_data_type, at_index; simpl.
    destruct (Z.ltb_spec (Z.of_nat k) 0); [lia|]. by rewrite Nat2Z.id, Hport. }
  pose proof (press_left_result this press s1 me1 (Z.of_nat k) _
                Hme1 Hpress Hidx ltac:(lia) Hdt) as Hpressed.
  match type of Hpressed with
  | _ = Some (emit _ (put_node _ ?n _)) => set (me2 := n) in *
  end.
  set (s2 := emit (connection_started this (Z.of_nat k)) (put_node this me2 s1))
    in *.
  assert (node_at s2 this = Some me2) as Hme2.
  { subst s2. rewrite node_at_emit. apply node_at_put_node_eq. by rewrite Hme1. }
  assert (∀ j, j ≠ this → node_at s2 j = node_at s j) as Hothers.
  { intros j Hne. subst s2 s1.
    by rewrite node_at_emit, !node_at_put_node_ne. }
  assert (items_at s2 (event_scenePos release) = pre ++ this :: post) as Hitems2.
  { rewrite <- Hitems.
    transitivity (items_at (put_node this me2 s1) (event_scenePos release));
      [reflexivity|].
    rewrite (items_at_put_node this me1 me2 s1) by done.
    by apply (items_at_put_node this me me1 s). }
  exists s1, s2. split; [by apply hoverMoveEvent_hit|]. split; [done|].
  rewrite (release_emitted this release s2 me2 Hme2 Hrelease eq_refl), Hitems2.
  rewrite (release_scan_first_node this s2 _ pre post this me2); [| |done].
  - replace (get_hovered_port_index me2) with (Z.of_nat k) by done.
    destruct (Z.leb_spec 0 (Z.of_nat k)); [|lia].
    subst s2; simpl. by rewrite <- app_assoc.
  - intros i Hi. rewrite Hothers; [by apply Hpre|].
    intros ->. rewrite (Hpre this Hi) in Hme. done.
Qed.

Lemma click_on_port_connects_it_to_itself_witness :
  ∃ s1 s2,
    hoverMoveEvent 0 (Samples.pt 95 35) Samples.scene_A = Some s1
    ∧ mousePressEvent 0 Samples.press_on_N1_port s1 = Some s2
    ∧ emitted (mouseReleaseEvent 0 Samples.release_over_N1 s2)
      = [connection_started 0 0; connection_finished 0 0 0 0].
Proof.
  apply (click_on_port_connects_it_to_itself 0 (Samples.pt 95 35)
           Samples.press_on_N1_port Samples.release_over_N1 Samples.scene_A
           Samples.N1 0 (mkPort OUT "float" "out") [] []).
  - reflexivity.
  - exact (none_hovered_replicate 1).
  - reflexivity.
  - exact (Nat.lt_0_succ 0).
  - reflexivity.
  - reflexivity.
  - reflexivity.
  - reflexivity.
  - intros i Hi. inversion Hi.
Defined.

(** X12. A drag over a port of another view ends in a connection exactly
    when the two ports are compatible.  The origin is dragging from a port
    of its proxy; the target has one flag and one hit rectangle per port
    and no flag set; the target filters a move whose point lies in the hit
    rectangle of its port [k]; the primary button is then released at a
    point where the target is the first view under the pointer.  The
    release emits [connection_finished] from the origin port to port [k] of
    the target when the directions differ and the data types agree, and
    [connection_dropped] otherwise. *)
Theorem drag_over_port_connects_iff_compatible
    o t move release s orig tgt from_port to_port k pre post :
  node_at s o = Some orig →
  has_connection_started orig = true →
  at_index (proxy_ports (p_node_proxy orig)) (port_index_from orig)
  = Some from_port →
  node_at s t = Some tgt →
  o ≠ t →
  view_sized tgt →
  none_hovered (is_port_hovered tgt) →
  first_hit (port_rects (geometry tgt)) 0
    (sub (event_scenePos move) (scenePos tgt)) = Some k →
  proxy_ports (p_node_proxy tgt) !! k = Some to_port →
  button release = LeftButton →
  items_at s (event_scenePos release) = pre ++ t :: post →
  (∀ i, i ∈ pre → node_at s i = None) →
  ∃ s1,
    sceneEventFilter t o (GraphicsSceneMouseMove move) s = Some s1
    ∧ emitted (mouseReleaseEvent o release s1)
      = emitted s
        ++ [if ports_compatible from_port to_port
            then connection_finished o (port_index_from orig) t (Z.of_nat k)
            else connection_dropped o (port_index_from orig)
                                    (event_scenePos release)].
Proof.
  intros Horig Hdrag Hfrom Htgt Hne Hsized Hnone Hhit Hto Hrelease Hitems Hpre.
  destruct (relay_move_spec t o move s tgt orig from_port
              Htgt Horig Hdrag Hsized Hfrom)
    as (me' & v0 & changed & Hrun & Hupd & Hproxy & _ & _ & _ & Hflags).
  set (s1 := put_node t me' s) in *.
  assert (node_at s1 t = Some me') as Hme'
    by (apply node_at_put_node_eq; by rewrite Htgt).
  assert (geometry me' = geometry tgt ∧ scenePos me' = scenePos tgt)
    as [Hgeo Hpos].
  { destruct (sceneEventFilter_shape _ _ _ _ _ Hrun)
      as [Hsame|(me0 & node0 & v & upd & Hme0 & _ & _ & _ & Hput)].
    - rewrite Hsame, Htgt in Hme'. by injection Hme' as <-.
    - assert (me0 = tgt) as -> by congruence.
      rewrite Hput in Hme'.
      rewrite node_at_put_node_eq in Hme' by (by rewrite Htgt).
      by injection Hme' as <-. }
  (* the flags of the target after the move *)
  destruct Hsized as [Hlenf Hlenr].
  destruct (update_flags_sized (port_rects (geometry tgt)) (is_port_hovered tgt)
              (sub (event_scenePos move) (scenePos tgt)) ltac:(congruence))
    as (v0' & changed' & Hupd' & _ & _ & Hset).
  rewrite Hupd in Hupd'. injection Hupd' as <- <-.
  rewrite (Hset k Hhit) in Hflags.
  pose proof (lookup_lt_Some _ _ _ Hto) as Hk. unfold get_nports in *.
  assert (is_port_hovered me' !! k
          = Some (ports_compatible from_port to_port)) as Hatk.
  { rewrite Hflags, list_lookup_insert_eq by lia. simpl.
    unfold checked. by rewrite Hto. }
  assert (∀ j, j ≠ k → is_port_hovered me' !! j ≠ Some true) as Hrest.
  { intros j Hj. rewrite Hflags, list_lookup_insert_ne by done.
    destruct (is_port_hovered tgt !! j) as [[|]|] eqn:Hb; simpl; [|done..].
    by destruct (Hnone j). }
  (* the release *)
  assert (node_at s1 o = Some orig) as Horig1
    by (subst s1; by rewrite node_at_put_node_ne).
  assert (items_at s1 (event_scenePos release) = pre ++ t :: post) as Hitems1.
  { rewrite <- Hitems. by apply (items_at_put_node t tgt me' s). }
  exists s1. split; [done|].
  rewrite (release_emitted o release s1 orig Horig1 Hrelease Hdrag), Hitems1.
  rewrite (release_scan_first_node o s1 _ pre post t me'); [| |done].
  - destruct (ports_compatible from_port to_port).
    + assert (get_hovered_port_index me' = Z.of_nat k) as ->.
      { apply get_hovered_port_index_first. split; [done|]. intros j Hj.
        destruct (lookup_lt_is_Some_2 (is_port_hovered me') j) as [[|] Hb];
          [|by destruct (Hrest j ltac:(lia))|done].
        apply lookup_lt_Some in Hatk. lia. }
      by destruct (Z.leb_spec 0 (Z.of_nat k)); [|lia].
    + assert (get_hovered_port_index me' < 0) as Hneg.
      { apply get_hovered_port_index_neg. intros j Hj.
        destruct (decide (j = k)) as [->|Hjk]; [congruence|].
        by destruct (Hrest j Hjk). }
      by destruct (Z.leb_spec 0 (get_hovered_port_index me')); [lia|].
  - intros i Hi. subst s1. rewrite node_at_put_node_ne; [by apply Hpre|].
    intros ->. rewrite (Hpre i Hi) in Htgt. done.
Qed.

Lemma drag_over_port_connects_iff_compatible_witness :
  (∃ s1,
     sceneEventFilter 1 0 Samples.move_over_N2 Samples.scene_A_pressed = Some s1
     ∧ emitted (mouseReleaseEvent 0 Samples.release_over_N2 s1)
       = [connection_started 0 0; connection_finished 0 0 1 0])
  ∧ (∃ s1,
       sceneEventFilter 1 0 Samples.move_over_N2
         (default Samples.scene_B (Samples.pressed Samples.scene_B)) = Some s1
       ∧ emitted (mouseReleaseEvent 0 Samples.release_over_N2 s1)
         = [connection_started 0 0;
            connection_dropped 0 0 (Samples.pt 205 35)]).
Proof.
  split.
  - apply (drag_over_port_connects_iff_compatible 0%nat 1%nat
             (Samples.left_at (Samples.pt 205 35) (Samples.pt 205 35))
             Samples.release_over_N2 Samples.scene_A_pressed
             (default Samples.N1 (node_at Samples.scene_A_pressed 0))
             Samples.N2 (mkPort OUT "float" "out") (mkPort IN "float" "in")
             0%nat [] []);
      try reflexivity.
    + discriminate.
    + split; reflexivity.
    + exact (none_hovered_replicate 1).
    + intros i Hi. inversion Hi.
  - apply (drag_over_port_connects_iff_compatible 0%nat 1%nat
             (Samples.left_at (Samples.pt 205 35) (Samples.pt 205 35))
             Samples.release_over_N2
             (default Samples.scene_B (Samples.pressed Samples.scene_B))
             (default Samples.N1 (node_at Samples.scene_A_pressed 0))
             Samples.N2_int (mkPort OUT "float" "out") (mkPort IN "int" "in")
             0%nat [] []);
      try reflexivity.
    + discriminate.
    + split; reflexivity.
    + exact (none_hovered_replicate 1).
    + intros i Hi. inversion Hi.
Defined.

(** X13. The compatibility test of the relay does not depend on which of
    the two ports is the origin: a port that may be reached from another
    one may also reach it. *)
Theorem compatibility_is_symmetric a b proxy_a proxy_b (i k : nat) :
  ports_compatible a b = ports_compatible b a
  ∧ (compatible proxy_a (Z.of_nat i) proxy_b k
     ↔ compatible proxy_b (Z.of_nat k) proxy_a i).
Proof.
  split.
  - unfold ports_compatible. rewrite (String.eqb_sym (port_data_type a)).
    by destruct (port_type a), (port_type b).
  - assert (∀ (l : list Port) (j : nat), at_index l (Z.of_nat j) = l !! j) as Hat.
    { intros l j. unfold at_index.
      destruct (Z.ltb_spec (Z.of_nat j) 0); [lia|]. by rewrite Nat2Z.id. }
    unfold compatible. rewrite !Hat. split.
    + intros (pa & pb & Ha & Hb & Hdir & Hdt). by exists pb, pa.
    + intros (pb & pa & Hb & Ha & Hdir & Hdt). by exists pa, pb.
Qed.

(* ===================================================================== *)
(** ** Further properties of [paint] *)
(* ===================================================================== *)

Section PaintCalls.

Variables (style : NodeStyle) (me : GraphicsNode).

(** The two calls of one port, read off the loop body. *)
Lemma paint_port_calls k calls :
  paint_port style me k = Some calls ↔
  ∃ port label_rect rect hovered,
    proxy_ports (p_node_proxy me) !! k = Some port
    ∧ port_label_rects (geometry me) !! k = Some label_rect
    ∧ port_rects (geometry me) !! k = Some rect
    ∧ is_port_hovered me !! k = Some hovered
    ∧ calls
      = [drawText_in (Pen white 1%Q) label_rect
           (if PortType_eqb (port_type port) IN then AlignLeft else AlignRight)
           (port_caption port);
         drawEllipse (outline_pen style me hovered)
           (if negb (String.eqb (data_type_connecting me) "")
               && negb (String.eqb (port_data_type port)
                                   (data_type_connecting me))
            then Brush (color_port_not_selectable style)
            else Brush (get_color_from_data_type style (port_data_type port)))
           (center rect)
           (if negb (String.eqb (data_type_connecting me) "")
               && negb (String.eqb (port_data_type port)
                                   (data_type_connecting me))
            then port_radius_not_selectable style else port_radius style)
           (if negb (String.eqb (data_type_connecting me) "")
               && negb (String.eqb (port_data_type port)
                                   (data_type_connecting me))
            then port_radius_not_selectable style else port_radius style)].
Proof.
  unfold paint_port, port_pen, get_port_type, get_port_caption, get_data_type,
    at_index.
  destruct (Z.ltb_spec (Z.of_nat k) 0) as [|_]; [lia|]. rewrite Nat2Z.id.
  destruct (proxy_ports (p_node_proxy me) !! k) as [port|]; simpl;
    [|split; [done | by intros (? & ? & ? & ? & ? & _)]].
  destruct (port_label_rects (geometry me) !! k) as [label_rect|]; simpl;
    [|split; [done | by intros (? & ? & ? & ? & _ & ? & _)]].
  destruct (is_port_hovered me !! k) as [hovered|]; simpl;
    [|split; [done | by intros (? & ? & ? & ? & _ & _ & _ & ? & _)]].
  destruct (negb _ && negb _) eqn:Hmuted;
    (destruct (port_rects (geometry me) !! k) as [rect|]; simpl;
     [|split; [done | by intros (? & ? & ? & ? & _ & _ & ? & _)]]);
    (split;
     [ intros [= <-]; eexists port, label_rect, rect, hovered;
       by rewrite Hmuted
     | intros (? & ? & ? & ? & [= <-] & [= <-] & [= <-] & [= <-] & ->);
       by rewrite Hmuted ]).
Qed.

Lemma paint_loop_calls count k0 init out :
  for_range count k0 (paint_step style me) init = Some out →
  length out = (length init + 2 * count)%nat
  ∧ (∀ i, (i < length init)%nat → out !! i = init !! i)
  ∧ ∀ k, (k0 ≤ k < k0 + count)%nat →
      ∃ label ellipse,
        paint_port style me k = Some [label; ellipse]
        ∧ out !! (length init + 2 * (k - k0))%nat = Some label
        ∧ out !! (length init + 2 * (k - k0) + 1)%nat = Some ellipse.
Proof.
  revert k0 init. induction count as [|count IH]; intros k0 init Hrun.
  - injection Hrun as <-. split; [lia|]. split; [done | lia].
  - cbn [for_range] in Hrun.
    destruct (paint_step style me k0 init) as [acc|] eqn:Hstep;
      simpl in Hrun; [|done].
    unfold paint_step in Hstep.
    destruct (paint_port style me k0) as [pc|] eqn:Hport;
      simpl in Hstep; [|done].
    injection Hstep as <-.
    apply IH in Hrun as (Hlen & Hprefix & Hports).
    pose proof Hport as Hshape.
    apply paint_port_shape in Hshape
      as (hovered & label & brush & c & r & _ & ->).
    rewrite length_app in *; cbn [length] in *.
    split; [lia|]. split.
    + intros i Hi. rewrite Hprefix by lia. by rewrite lookup_app_l.
    + intros k Hk. destruct (decide (k = k0)) as [->|Hne].
      * eexists _, _. split; [done|].
        replace (length init + 2 * (k0 - k0))%nat with (length init + 0)%nat
          by lia.
        rewrite !Hprefix by lia.
        rewrite !lookup_app_r by lia.
        replace (length init + 0 - length init)%nat with 0%nat by lia.
        replace (length init + 0 + 1 - length init)%nat with 1%nat by lia.
        done.
      * destruct (Hports k ltac:(lia)) as (label' & ellipse' & Hp & Hl & He).
        exists label', ellipse'. split; [done|].
        replace (length init + 2 * (k - k0))%nat
          with (length init + 2 + 2 * (k - S k0))%nat by lia.
        done.
Qed.

Lemma paint_loop_is_Some count k0 init :
  is_Some (for_range count k0 (paint_step style me) init) ↔
  ∀ k, (k0 ≤ k < k0 + count)%nat → is_Some (paint_port style me k).
Proof.
  revert k0 init. induction count as [|count IH]; intros k0 init.
  - split; [intros _ k Hk; lia | done].
  - cbn [for_range].
    destruct (paint_step style me k0 init) as [acc|] eqn:Hstep;
      unfold paint_step in Hstep;
      destruct (paint_port style me k0) as [pc|] eqn:Hport;
      simpl in Hstep; try done.
    + change (is_Some (for_range count (S k0) (paint_step style me) acc)
              ↔ ∀ k, (k0 ≤ k < k0 + S count)%nat →
                     is_Some (paint_port style me k)).
      rewrite IH. split.
      * intros H k Hk. destruct (decide (k = k0)) as [->|Hne];
          [by rewrite Hport | apply H; lia].
      * intros H k Hk. apply H. lia.
    + simpl. split; [by intros [? ?]|]. intros H.
      destruct (H k0 ltac:(lia)) as [? Hc]. congruence.
Qed.

End PaintCalls.

(** X14. A completed [paint] issues three calls for the body followed by
    two calls per port, in port order, and nothing else.  The body calls
    are the background (no pen, background brush), the caption (in the
    selection colour when the node is selected, in the caption colour
    otherwise) and the border, whose pen is the selection pen when the node
    is selected, else the hover pen when the node is hovered, else the
    default border pen.  For port [k], call [3 + 2k] is its label (white,
    in its label rectangle, left-aligned for IN and right-aligned for OUT,
    with the caption of the port) and call [3 + 2k + 1] is its circle
    (outlined by the port pen, centred on its hit rectangle, filled and
    sized by the data-type rule of the port brush). *)
Theorem paint_draws_body_then_ports style me calls :
  paint style me = Some calls →
  length calls = (3 + 2 * get_nports (p_node_proxy me))%nat
  ∧ calls !! 0%nat
    = Some (drawRoundedRect NoPen (Brush (color_bg style))
              (body_rect (geometry me))
              (rounding_radius style) (rounding_radius style))
  ∧ calls !! 1%nat
    = Some (drawText
              (Pen (if isSelected me then color_selected style
                    else color_caption style) 1%Q)
              (caption_pos (geometry me)) (proxy_caption (p_node_proxy me)))
  ∧ calls !! 2%nat
    = Some (drawRoundedRect
              (if isSelected me
               then Pen (color_selected style) (thickness_selected style)
               else if is_node_hovered me
                    then Pen (color_border_hovered style)
                             (thickness_hovered style)
                    else Pen (color_border style) (thickness_border style))
              NoBrush (body_rect (geometry me))
              (rounding_radius style) (rounding_radius style))
  ∧ ∀ k port,
      proxy_ports (p_node_proxy me) !! k = Some port →
      ∃ label_rect rect (hovered muted : bool),
        port_label_rects (geometry me) !! k = Some label_rect
        ∧ port_rects (geometry me) !! k = Some rect
        ∧ is_port_hovered me !! k = Some hovered
        ∧ muted = negb (String.eqb (data_type_connecting me) "")
                  && negb (String.eqb (port_data_type port)
                                      (data_type_connecting me))
        ∧ calls !! (3 + 2 * k)%nat
          = Some (drawText_in (Pen white 1%Q) label_rect
                    (match port_type port with
                     | IN => AlignLeft
                     | OUT => AlignRight
                     end)
                    (port_caption port))
        ∧ calls !! (3 + 2 * k + 1)%nat
          = Some (drawEllipse
                    (if hovered
                     then Pen (color_port_hovered style)
                              (thickness_selected style)
                     else if is_node_hovered me
                          then Pen (color_border_hovered style)
                                   (thickness_hovered style)
                          else Pen (color_border style)
                                   (thickness_border style))
                    (if muted
                     then Brush (color_port_not_selectable style)
                     else Brush (get_color_from_data_type style
                                   (port_data_type port)))
                    (center rect)
                    (if muted then port_radius_not_selectable style
                     else port_radius style)
                    (if muted then port_radius_not_selectable style
                     else port_radius style)).
Proof.
  unfold paint. intros Hrun.
  apply paint_loop_calls in Hrun as (Hlen & Hprefix & Hports).
  cbn [length] in Hlen. split; [exact Hlen|].
  rewrite !Hprefix by (cbn [length]; lia).
  split; [done|]. split; [done|]. split; [done|].
  intros k port Hport.
  destruct (Hports k) as (label & ellipse & Hcalls & Hl & He).
  { apply lookup_lt_Some in Hport. unfold get_nports. lia. }
  apply paint_port_calls in Hcalls
    as (port' & label_rect & rect & hovered & Hp & Hlr & Hr & Hh & Heq).
  rewrite Hport in Hp. injection Hp as <-. injection Heq as -> ->.
  cbn [length] in Hl, He.
  replace (3 + 2 * (k - 0))%nat with (3 + 2 * k)%nat in Hl, He by lia.
  eexists label_rect, rect, hovered, _.
  split; [done|]. split; [done|]. split; [done|]. split; [reflexivity|].
  split; [|exact He].
  rewrite Hl. by destruct (port_type port).
Qed.

Lemma paint_draws_body_then_ports_witness :
  ∃ calls label_rect rect,
    paint Samples.style Samples.N1_selected = Some calls
    ∧ length calls = 5%nat
    ∧ calls !! 2%nat
      = Some (drawRoundedRect
                (Pen (color_selected Samples.style)
                     (thickness_selected Samples.style))
                NoBrush (body_rect Samples.geometry_out)
                (rounding_radius Samples.style)
                (rounding_radius Samples.style))
    ∧ calls !! 3%nat
      = Some (drawText_in (Pen white 1%Q) label_rect AlignRight "out")
    ∧ calls !! 4%nat
      = Some (drawEllipse
                (Pen (color_border Samples.style)
                     (thickness_border Samples.style))
                (Brush (get_color_from_data_type Samples.style "float"))
                (center rect)
                (port_radius Samples.style) (port_radius Samples.style)).
Proof.
  destruct (paint_draws_body_then_ports Samples.style Samples.N1_selected
              (default [] (paint Samples.style Samples.N1_selected)) eq_refl)
    as (Hlen & _ & _ & Hborder & Hports).
  destruct (Hports 0%nat (mkPort OUT "float" "out") eq_refl)
    as (label_rect & rect & hovered & muted & _ & _ & Hh & Hm & Hl & He).
  injection Hh as <-. subst muted.
  eexists _, label_rect, rect. split; [reflexivity|].
  split; [exact Hlen|]. split; [exact Hborder|]. split; [exact Hl | exact He].
Defined.

(** X15. Compatibility feedback: in a completed [paint], the circle of port
    [k] is drawn around the centre of its hit rectangle; while a link of
    another data type is being dragged (the view's [data_type_connecting]
    is not empty and differs from the data type of the port) it is filled
    with the not-selectable colour at the not-selectable radius, and
    otherwise with the colour of its data type at the normal radius. *)
Theorem paint_mutes_ports_of_other_data_type style me calls k port :
  paint style me = Some calls →
  proxy_ports (p_node_proxy me) !! k = Some port →
  ∃ pen brush rect r,
    port_rects (geometry me) !! k = Some rect
    ∧ calls !! (3 + 2 * k + 1)%nat
      = Some (drawEllipse pen brush (center rect) r r)
    ∧ (data_type_connecting me ≠ ""
       ∧ port_data_type port ≠ data_type_connecting me →
       brush = Brush (color_port_not_selectable style)
       ∧ r = port_radius_not_selectable style)
    ∧ (data_type_connecting me = ""
       ∨ port_data_type port = data_type_connecting me →
       brush = Brush (get_color_from_data_type style (port_data_type port))
       ∧ r = port_radius style).
Proof.
  unfold paint. intros Hrun Hport.
  apply paint_loop_calls in Hrun as (_ & _ & Hports).
  destruct (Hports k) as (label & ellipse & Hcalls & _ & He).
  { apply lookup_lt_Some in Hport. unfold get_nports. lia. }
  apply paint_port_calls in Hcalls
    as (port' & label_rect & rect & hovered & Hp & _ & Hr & _ & Heq).
  rewrite Hport in Hp. injection Hp as <-. injection Heq as -> ->.
  simpl in He. replace (k - 0)%nat with k in He by lia.
  eexists _, _, rect, _. split; [done|]. split; [exact He|].
  destruct (String.eqb_spec (data_type_connecting me) "") as [Hempty|Hempty],
    (String.eqb_spec (port_data_type port) (data_type_connecting me))
      as [Hsame|Hsame]; simpl; split; try done; intros H; tauto.
Qed.

Lemma paint_mutes_ports_of_other_data_type_witness :
  ∃ calls pen rect,
    paint Samples.style (set_data_type_connecting "float" Samples.N2_int)
    = Some calls
    ∧ calls !! 4%nat
      = Some (drawEllipse pen (Brush (color_port_not_selectable Samples.style))
                (center rect) (port_radius_not_selectable Samples.style)
                (port_radius_not_selectable Samples.style)).
Proof.
  destruct (paint_mutes_ports_of_other_data_type Samples.style
              (set_data_type_connecting "float" Samples.N2_int)
              (default [] (paint Samples.style
                             (set_data_type_connecting "float" Samples.N2_int)))
              0 (mkPort IN "int" "in") eq_refl eq_refl)
    as (pen & brush & rect & r & _ & He & Hmuted & _).
  destruct Hmuted as [-> ->]; [split; discriminate|].
  eexists _, pen, rect. split; [reflexivity | exact He].
Defined.

(** X16. In a completed [paint], the label of port [k] (the call before its
    circle) is drawn in white inside the label rectangle of the port, with
    the caption of the port, left-aligned for an IN port and right-aligned
    for an OUT port. *)
Theorem paint_aligns_labels_by_direction style me calls k port :
  paint style me = Some calls →
  proxy_ports (p_node_proxy me) !! k = Some port →
  ∃ label_rect,
    port_label_rects (geometry me) !! k = Some label_rect
    ∧ calls !! (3 + 2 * k)%nat
      = Some (drawText_in (Pen white 1%Q) label_rect
                (match port_type port with
                 | IN => AlignLeft
                 | OUT => AlignRight
                 end)
                (port_caption port)).
Proof.
  unfold paint. intros Hrun Hport.
  apply paint_loop_calls in Hrun as (_ & _ & Hports).
  destruct (Hports k) as (label & ellipse & Hcalls & Hl & _).
  { apply lookup_lt_Some in Hport. unfold get_nports. lia. }
  apply paint_port_calls in Hcalls
    as (port' & label_rect & rect & hovered & Hp & Hlr & _ & _ & Heq).
  rewrite Hport in Hp. injection Hp as <-. injection Heq as -> _.
  simpl in Hl. replace (k - 0)%nat with k in Hl by lia.
  exists label_rect. split; [done|]. destruct (port_type port); exact Hl.
Qed.

Lemma paint_aligns_labels_by_direction_witness :
  ∃ calls label_rect,
    paint Samples.style Samples.N1 = Some calls
    ∧ calls !! 3%nat
      = Some (drawText_in (Pen white 1%Q) label_rect AlignRight "out").
Proof.
  destruct (paint_aligns_labels_by_direction Samples.style Samples.N1
              (default [] (paint Samples.style Samples.N1))
              0 (mkPort OUT "float" "out") eq_refl eq_refl)
    as (label_rect & _ & Hl).
  eexists _, label_rect. split; [reflexivity | exact Hl].
Defined.

(** X17. [paint] indexes the hover flags, the hit rectangles and the label
    rectangles with every port index of the proxy and checks none of them:
    it completes exactly when each of the three vectors has at least as
    many entries as the proxy has ports. *)
Theorem paint_completes_iff_vectors_cover_ports style me :
  is_Some (paint style me) ↔
  (get_nports (p_node_proxy me) ≤ length (is_port_hovered me))%nat
  ∧ (get_nports (p_node_proxy me) ≤ length (port_rects (geometry me)))%nat
  ∧ (get_nports (p_node_proxy me)
     ≤ length (port_label_rects (geometry me)))%nat.
Proof.
  unfold paint. rewrite paint_loop_is_Some. unfold get_nports. split.
  - intros Hall.
    destruct (length (proxy_ports (p_node_proxy me))) as [|m] eqn:Hn; [lia|].
    destruct (Hall m ltac:(lia)) as [calls Hcalls].
    apply paint_port_calls in Hcalls
      as (port & label_rect & rect & hovered & _ & Hlr & Hr & Hh & _).
    apply lookup_lt_Some in Hlr, Hr, Hh. lia.
  - intros (Hflags & Hrects & Hlabels) k Hk.
    destruct (lookup_lt_is_Some_2 (proxy_ports (p_node_proxy me)) k ltac:(lia))
      as [port Hport].
    destruct (lookup_lt_is_Some_2 (is_port_hovered me) k ltac:(lia))
      as [hovered Hh].
    destruct (lookup_lt_is_Some_2 (port_rects (geometry me)) k ltac:(lia))
      as [rect Hr].
    destruct (lookup_lt_is_Some_2 (port_label_rects (geometry me)) k ltac:(lia))
      as [label_rect Hlr].
    eexists. apply paint_port_calls.
    by exists port, label_rect, rect, hovered.
Qed.

(* ===================================================================== *)
(** ** Leaving a port *)
(* ===================================================================== *)

Lemma clear_first_hovered_sub count k0 (v v' : list bool) changed :
  clear_first_hovered count k0 v = Some (v', changed) →
  ∀ j, v' !! j = Some true → v !! j = Some true.
Proof.
  revert k0. induction count as [|count IH]; intros k0; simpl.
  - by intros [= <- <-].
  - destruct (v !! k0) as [[|]|] eqn:Hk0; simpl; [|by apply IH|done].
    intros [= <- <-] j Hj. destruct (decide (j = k0)) as [->|Hne].
    + rewrite list_lookup_insert_eq in Hj; [done|]. by eapply lookup_lt_Some.
    + by rewrite list_lookup_insert_ne in Hj.
Qed.

(** X18. The hover update keeps the flags exclusive as long as the pointer
    does not jump from one port into another: if at most one flag is set
    and the point either lies in no hit rectangle or lies in the hit
    rectangle of the port that is already flagged (or no flag is set), at
    most one flag is set afterwards. *)
Theorem hover_stays_exclusive_without_port_jump p n n' changed :
  at_most_one_hovered (is_port_hovered n) →
  (∀ k j, first_hit (port_rects (geometry n)) 0 p = Some k →
          is_port_hovered n !! j = Some true → j = k) →
  update_is_port_hovered p n = Some (n', changed) →
  at_most_one_hovered (is_port_hovered n').
Proof.
  intros Hone Hnojump. unfold update_is_port_hovered, update_flags.
  destruct (first_hit _ 0 p) as [k|].
  - destruct (is_port_hovered n !! k) as [b|] eqn:Hk; simpl; [|done].
    intros [= <- <-]. simpl. intros i j Hi Hj.
    assert (∀ x, <[k := true]> (is_port_hovered n) !! x = Some true → x = k)
      as Hall.
    { intros x Hx. destruct (decide (x = k)) as [->|Hne]; [done|].
      rewrite list_lookup_insert_ne in Hx by done. by apply (Hnojump k x). }
    by rewrite (Hall i Hi), (Hall j Hj).
  - destruct (clear_first_hovered _ _ _) as [[v c]|] eqn:Hclear; simpl; [|done].
    intros [= <- <-]. simpl. intros i j Hi Hj.
    apply (Hone i j); by eapply clear_first_hovered_sub.
Qed.

Lemma hover_stays_exclusive_without_port_jump_witness :
  at_most_one_hovered [false; true].
Proof.
  apply (hover_stays_exclusive_without_port_jump (Samples.pt 5 55)
           (set_is_port_hovered [false; true] Samples.N3)
           (set_is_port_hovered [false; true] Samples.N3) true).
  - intros [|[|i]] [|[|j]] Hi Hj; try discriminate Hi; try discriminate Hj;
      reflexivity.
  - intros k [|[|j]] Hhit Hj; try discriminate Hj.
    injection Hhit as <-. reflexivity.
  - reflexivity.
Defined.

(** X19. When the dragged pointer has left the port it hovered, a release
    over the body of that view drops the link.  The origin is dragging from
    a port of its proxy; the target has one flag and one hit rectangle per
    port and at most one flag set; it filters a move whose point lies in
    none of its hit rectangles; the primary button is then released at a
    point where the target is the first view under the pointer.  The target
    ends with no flag set and the release emits [connection_dropped]. *)
Theorem drag_off_the_port_then_release_drops
    o t move release s orig tgt from_port pre post :
  node_at s o = Some orig →
  has_connection_started orig = true →
  at_index (proxy_ports (p_node_proxy orig)) (port_index_from orig)
  = Some from_port →
  node_at s t = Some tgt →
  o ≠ t →
  view_sized tgt →
  at_most_one_hovered (is_port_hovered tgt) →
  first_hit (port_rects (geometry tgt)) 0
    (sub (event_scenePos move) (scenePos tgt)) = None →
  button release = LeftButton →
  items_at s (event_scenePos release) = pre ++ t :: post →
  (∀ i, i ∈ pre → node_at s i = None) →
  ∃ s1 tgt',
    sceneEventFilter t o (GraphicsSceneMouseMove move) s = Some s1
    ∧ node_at s1 t = Some tgt'
    ∧ none_hovered (is_port_hovered tgt')
    ∧ emitted (mouseReleaseEvent o release s1)
      = emitted s ++ [connection_dropped o (port_index_from orig)
                        (event_scenePos release)].
Proof.
  intros Horig Hdrag Hfrom Htgt Hne Hsized Hone Hmiss Hrelease Hitems Hpre.
  destruct (relay_move_spec t o move s tgt orig from_port
              Htgt Horig Hdrag Hsized Hfrom)
    as (me' & v0 & changed & Hrun & Hupd & _ & _ & _ & _ & Hflags).
  set (s1 := put_node t me' s) in *.
  assert (node_at s1 t = Some me') as Hme'
    by (apply node_at_put_node_eq; by rewrite Htgt).
  assert (geometry me' = geometry tgt ∧ scenePos me' = scenePos tgt)
    as [Hgeo Hpos].
  { destruct (sceneEventFilter_shape _ _ _ _ _ Hrun)
      as [Hsame|(me0 & node0 & v & upd & Hme0 & _ & _ & _ & Hput)].
    - rewrite Hsame, Htgt in Hme'. by injection Hme' as <-.
    - assert (me0 = tgt) as -> by congruence.
      rewrite Hput in Hme'.
      rewrite node_at_put_node_eq in Hme' by (by rewrite Htgt).
      by injection Hme' as <-. }
  destruct Hsized as [Hlenf Hlenr].
  destruct (update_flags_miss_clears_first (port_rects (geometry tgt))
              (is_port_hovered tgt) (sub (event_scenePos move) (scenePos tgt))
              ltac:(congruence) Hmiss Hone)
    as (v0' & changed' & Hupd' & Hnone0).
  rewrite Hupd in Hupd'. injection Hupd' as <- <-.
  assert (none_hovered (is_port_hovered me')) as Hnone.
  { intros j Hj. rewrite Hflags in Hj.
    destruct (v0 !! j) as [[|]|] eqn:Hb; simpl in Hj; [|done..].
    by destruct (Hnone0 j). }
  assert (node_at s1 o = Some orig) as Horig1
    by (subst s1; by rewrite node_at_put_node_ne).
  assert (items_at s1 (event_scenePos release) = pre ++ t :: post) as Hitems1.
  { rewrite <- Hitems. by apply (items_at_put_node t tgt me' s). }
  exists s1, me'. split; [done|]. split; [done|]. split; [done|].
  rewrite (release_emitted o release s1 orig Horig1 Hrelease Hdrag), Hitems1.
  rewrite (release_scan_first_node o s1 _ pre post t me'); [| |done].
  - apply get_hovered_port_index_neg in Hnone.
    by destruct (Z.leb_spec 0 (get_hovered_port_index me')); [lia|].
  - intros i Hi. subst s1. rewrite node_at_put_node_ne; [by apply Hpre|].
    intros ->. rewrite (Hpre i Hi) in Htgt. done.
Qed.

Lemma drag_off_the_port_then_release_drops_witness :
  ∃ s1 tgt',
    sceneEventFilter 1 0
      (GraphicsSceneMouseMove
         (Samples.left_at (Samples.pt 250 30) (Samples.pt 250 30)))
      Samples.scene_A_dragged = Some s1
    ∧ node_at s1 1 = Some tgt'
    ∧ none_hovered (is_port_hovered tgt')
    ∧ emitted (mouseReleaseEvent 0
                 (Samples.left_at (Samples.pt 250 30) (Samples.pt 250 30)) s1)
      = [connection_started 0 0;
         connection_dropped 0 0 (Samples.pt 250 30)].
Proof.
  apply (drag_off_the_port_then_release_drops 0%nat 1%nat
           (Samples.left_at (Samples.pt 250 30) (Samples.pt 250 30))
           (Samples.left_at (Samples.pt 250 30) (Samples.pt 250 30))
           Samples.scene_A_dragged Samples.N1_dragging Samples.N2_hovered
           (mkPort OUT "float" "out") [] []);
    try reflexivity.
  - discriminate.
  - split; reflexivity.
  - intros [|i] [|j] Hi Hj; try discriminate Hi; try discriminate Hj;
      reflexivity.
  - intros i Hi. inversion Hi.
Defined.
